(** * PDF merger with natural ordering: a shallow embedding of [pdf_merger.py]

    The development follows the source file top to bottom:
    - [Text]: Python [str] values and the string methods the script calls
      ([isdigit], [lower], [endswith], [re.split], [os.path.join]);
    - [Py]: exceptions, [int], list comparison and [list.sort(key=...)];
    - [NaturalSort]: [natural_sort_key];
    - [Merger]: the file tree, [os.walk], [combine_pdfs] with its effects,
      and [main];
    - [Spec] and [Examples]: the notions the properties are stated with, and
      sample file trees;
    - the facts about text, keys, the sort and the run, and then the
      properties of the program, each introduced by the claim it settles.

    Scope of the model.  A Python [str] is a sequence of code points; the
    model covers the code points U+0000..U+00FF, one [ascii] value each, with
    the Unicode properties of exactly that range.  Paths are joined as
    [posixpath] does.  [int] has the default digit limit of CPython (4300
    digits).  The PDF engine ([PdfMerger]), [os.makedirs], [os.listdir] and
    the console are collaborators of the script: their calls are recorded as
    events and they do not fail, except [PdfMerger.append], whose failure is
    decided by the content of the file it is given and which leaves the
    merger as it was.  The model thus describes the runs in which the
    operating system lets the script create the output folder, list the
    folders of the walk and write the result; in the script an error of
    [os.makedirs] or of [PdfMerger.write] is not caught and ends the run
    with that error.  Symbolic links are not modelled. *)

From Stdlib Require Import Bool List String Ascii NArith Arith Lia.
From Stdlib Require Import Permutation Sorted.
Import ListNotations.

Local Open Scope string_scope.
Local Open Scope list_scope.

(* ===================================================================== *)
(** ** Python text *)
(* ===================================================================== *)

Module Text.

(** The code point of a character. *)
Definition code (c : ascii) : N := N_of_ascii c.

(** [\d] in a [str] pattern: Unicode category Nd.  Below U+0100 these are
    the ten ASCII digits. *)
Definition re_digit (c : ascii) : bool :=
  ((48 <=? code c) && (code c <=? 57))%N.

(** A character accepted by [str.isdigit]: Numeric_Type Decimal or Digit.
    Below U+0100 these are the ASCII digits and the superscripts
    U+00B2, U+00B3 and U+00B9, which are digits without being decimals. *)
Definition isdigit_char (c : ascii) : bool :=
  (re_digit c || (code c =? 178) || (code c =? 179) || (code c =? 185))%N.

Fixpoint all_chars (p : ascii -> bool) (s : string) : bool :=
  match s with
  | EmptyString => true
  | String c s' => p c && all_chars p s'
  end.

(** [s.isdigit()]: every character is a digit and there is at least one. *)
Definition isdigit (s : string) : bool :=
  match s with
  | EmptyString => false
  | String _ _ => all_chars isdigit_char s
  end.

(** Lowercase mapping of one code point: A-Z, and the Latin-1 capitals
    U+00C0..U+00DE without the multiplication sign U+00D7. *)
Definition lower_char (c : ascii) : ascii :=
  let n := code c in
  if (((65 <=? n) && (n <=? 90))
      || ((192 <=? n) && (n <=? 222) && negb (n =? 215)))%N
  then ascii_of_N (n + 32)
  else c.

(** [s.lower()]. *)
Fixpoint lower (s : string) : string :=
  match s with
  | EmptyString => EmptyString
  | String c s' => String (lower_char c) (lower s')
  end.

(** [s.endswith(suffix)]: some tail of [s] is [suffix]. *)
Fixpoint endswith (s suffix : string) : bool :=
  if String.eqb s suffix then true
  else match s with
       | EmptyString => false
       | String _ s' => endswith s' suffix
       end.

(** [s.startswith(prefix)]. *)
Definition startswith (s pre : string) : bool := String.prefix pre s.

(** [os.path.join(a, b)] of [posixpath], for two components. *)
Definition os_path_join (a b : string) : string :=
  if startswith b "/" then b
  else if String.eqb a EmptyString || endswith a "/" then a ++ b
  else a ++ "/" ++ b.

(** [a < b] on [str]: lexicographic on code points. *)
Fixpoint str_ltb (a b : string) : bool :=
  match a, b with
  | _, EmptyString => false
  | EmptyString, String _ _ => true
  | String x a', String y b' =>
      if (code x <? code y)%N then true
      else if (code x =? code y)%N then str_ltb a' b'
      else false
  end.

(** The value of a run of decimal digits, most significant first. *)
Fixpoint decimal_value (acc : N) (s : string) : option N :=
  match s with
  | EmptyString => Some acc
  | String c s' =>
      if re_digit c then decimal_value (10 * acc + (code c - 48)) s'
      else None
  end.

(** [re.split(r'(\d+)', s)].  The pattern has one capturing group, so the
    result alternates the text between matches (even positions, possibly
    empty) with the matched digit runs (odd positions); matches are the
    maximal runs of [\d] characters, left to right.  The recursion extends the
    split of the rest of the string by one character at the front. *)
Fixpoint re_split (s : string) : list string :=
  match s with
  | EmptyString => [EmptyString]
  | String c s' =>
      match re_split s' with
      | [] => []
      | p0 :: rest =>
          if re_digit c then
            match p0, rest with
            | EmptyString, d :: rest' => EmptyString :: String c d :: rest'
            | _, _ => EmptyString :: String c EmptyString :: p0 :: rest
            end
          else String c p0 :: rest
      end
  end.

End Text.

(* ===================================================================== *)
(** ** Python values, exceptions, comparison and sorting *)
(* ===================================================================== *)

Module Py.

(** The exceptions the script can meet outside its [try] block. *)
Inductive exn : Type :=
| ValueError (literal : string)   (* int() rejects the literal *)
| TypeError.                      (* '<' not supported between str and int *)

Inductive result (A : Type) : Type :=
| Ok (a : A)
| Raise (e : exn).
Arguments Ok {A} a.
Arguments Raise {A} e.

Definition bind {A B : Type} (r : result A) (f : A -> result B) : result B :=
  match r with
  | Ok a => f a
  | Raise e => Raise e
  end.

Notation "x <- c ;; k" := (bind c (fun x => k))
  (at level 61, c at next level, right associativity).

(** A list comprehension whose element expression may raise: elements are
    evaluated left to right and the first exception escapes. *)
Fixpoint comprehension {A B : Type} (f : A -> result B) (l : list A)
  : result (list B) :=
  match l with
  | [] => Ok []
  | x :: l' => y <- f x ;; ys <- comprehension f l' ;; Ok (y :: ys)
  end.

(** The default of [sys.int_info.default_max_str_digits]: [int] refuses a
    decimal literal of more digits. *)
Definition max_str_digits : N := 4300.

Definition within_limit (c : string) : bool :=
  (N.of_nat (String.length c) <=? max_str_digits)%N.

(** [int(c)] for an argument that satisfies [c.isdigit()], which is how the
    script calls it.  The characters are checked first: a character that is
    not a decimal digit makes the literal invalid.  Then the digits are
    counted: more than [max_str_digits] of them exceed the limit for the
    conversion.  Both are a [ValueError]. *)
Definition int (c : string) : result N :=
  match c with
  | EmptyString => Raise (ValueError c)
  | String _ _ =>
      match Text.decimal_value 0 c with
      | Some n => if within_limit c then Ok n else Raise (ValueError c)
      | None => Raise (ValueError c)
      end
  end.

(** The elements of a sort key: [int] or [str]. *)
Inductive token : Type :=
| TInt (n : N)
| TStr (s : string).

(** [x == y]; an [int] never equals a [str]. *)
Definition token_eqb (x y : token) : bool :=
  match x, y with
  | TInt a, TInt b => (a =? b)%N
  | TStr a, TStr b => String.eqb a b
  | _, _ => false
  end.

(** [x < y]; ordering an [int] against a [str] raises [TypeError]. *)
Definition token_lt (x y : token) : result bool :=
  match x, y with
  | TInt a, TInt b => Ok (a <? b)%N
  | TStr a, TStr b => Ok (Text.str_ltb a b)
  | _, _ => Raise TypeError
  end.

Definition key : Type := list token.

(** [a < b] on lists: the first position where the elements differ (by
    [==]) decides with [<]; if there is none the shorter list is smaller. *)
Fixpoint key_lt (a b : key) : result bool :=
  match a, b with
  | [], [] => Ok false
  | [], _ :: _ => Ok true
  | _ :: _, [] => Ok false
  | x :: a', y :: b' =>
      if token_eqb x y then key_lt a' b' else token_lt x y
  end.

Section Sort.
Context {A : Type}.

(** Insertion into a list of (key, item) pairs ordered by key.  The new
    pair passes the pairs whose key is smaller and stops at the first one
    that is not, so it stays before the items with equal key. *)
Fixpoint insert (x : key * A) (l : list (key * A)) : result (list (key * A)) :=
  match l with
  | [] => Ok [x]
  | y :: l' =>
      b <- key_lt (fst y) (fst x) ;;
      if b then r <- insert x l' ;; Ok (y :: r)
      else Ok (x :: y :: l')
  end.

Fixpoint sort_pairs (l : list (key * A)) : result (list (key * A)) :=
  match l with
  | [] => Ok []
  | x :: l' => r <- sort_pairs l' ;; insert x r
  end.

(** [l.sort(key=f)]: the keys of all items are computed first, left to
    right; then the items are arranged in ascending order of key with [<],
    items of equal key keeping their order (the sort is stable). *)
Definition list_sort (f : A -> result key) (l : list A) : result (list A) :=
  keyed <- comprehension (fun x => k <- f x ;; Ok (k, x)) l ;;
  sorted <- sort_pairs keyed ;;
  Ok (map snd sorted).
End Sort.

End Py.

(* ===================================================================== *)
(** ** natural_sort_key *)
(* ===================================================================== *)

Module NaturalSort.
Import Py.

(** [int(c) if c.isdigit() else c.lower()] *)
Definition key_token (c : string) : result token :=
  if Text.isdigit c then n <- Py.int c ;; Ok (TInt n)
  else Ok (TStr (Text.lower c)).

(** [[int(c) if c.isdigit() else c.lower() for c in re.split(r'(\d+)', s)]] *)
Definition natural_sort_key (s : string) : result key :=
  comprehension key_token (Text.re_split s).

End NaturalSort.

(* ===================================================================== *)
(** ** The file tree, the merger and combine_pdfs *)
(* ===================================================================== *)

Module Merger.
Import Py NaturalSort.

(** A page of a document; pages are told apart by a number. *)
Definition page : Type := nat.
Definition document : Type := list page.

(** What [PdfMerger.append] finds in a regular file: a document it can read,
    or something it rejects with a reason. *)
Inductive content : Type :=
| Pdf (pages : document)
| Unreadable (reason : string).

#[local] Set Warnings "-register-all".

(** The file tree below a path: regular files and directories whose entries
    are listed in the order the operating system returns them. *)
Inductive node : Type :=
| File (c : content)
| Dir (entries : list (string * node)).

Definition entry : Type := (string * node)%type.

(** What the run observes of the file system.
    - [output_exists] is the answer of [os.path.exists(output_folder)];
    - [source] is what [os.walk] finds at [source_folder], [None] when the
      path does not exist; the walk comes after the output folder has been
      created, and [os.listdir] on a folder of the walk lists the entries
      the walk saw there;
    - [stored] gives the documents already on disk, by path. *)
Record world : Type := {
  output_exists : bool;
  source : option node;
  stored : string -> option document
}.

(** The lines the script prints:
    ["Starting PDF combination from: {source_folder}"],
    ["Created output folder: {output_folder}"], ["Added: {pdf_path}"],
    ["Error adding {pdf_path}: {e}"],
    ["Successfully combined {pdf_count} PDF files into: {output_path}"],
    ["No PDF files found in the specified folders."]. *)
Inductive message : Type :=
| Starting (source_folder : string)
| CreatedOutputFolder (output_folder : string)
| Added (pdf_path : string)
| ErrorAdding (pdf_path reason : string)
| SuccessfullyCombined (pdf_count : nat) (output_path : string)
| NoPdfFilesFound.

(** The calls the script makes to its collaborators, in program order. *)
Inductive event : Type :=
| Makedirs (path : string)
| Print (m : message)
| Walk (top : string)
| Listdir (folder : string)
| Append (pdf_path : string) (outcome : string + document)
| Write (output_path : string) (doc : document)
| Close.

(** The variables of [combine_pdfs] that change along the run: the
    accumulated document of [merger], [pdf_count], and the calls so far. *)
Record state : Type := {
  merger : document;
  pdf_count : nat;
  trace : list event
}.

Definition emit (st : state) (evs : list event) : state :=
  {| merger := merger st; pdf_count := pdf_count st;
     trace := trace st ++ evs |}.

(** How a call of [combine_pdfs] ends: it returns, or an exception escapes. *)
Record run : Type := {
  final : state;
  raised : option exn
}.

(** [os.walk(top)], top-down with the default [onerror=None]: a path that
    cannot be scanned (missing, or not a directory) yields nothing; a
    directory yields itself and then the walk of each entry under
    [join(top, name)].  Each yielded root is paired with its listing. *)
Fixpoint walk (top : string) (n : node) {struct n}
  : list (string * list entry) :=
  match n with
  | File _ => []
  | Dir entries =>
      (top, entries) ::
      (fix walk_entries (es : list entry) : list (string * list entry) :=
         match es with
         | [] => []
         | (name, child) :: es' =>
             walk (Text.os_path_join top name) child ++ walk_entries es'
         end) entries
  end.

Definition os_walk (w : world) (top : string) : list (string * list entry) :=
  match source w with
  | None => []
  | Some n => walk top n
  end.

(** [f.lower().endswith('.pdf')] *)
Definition is_pdf_name (f : string) : bool :=
  Text.endswith (Text.lower f) ".pdf".

(** [merger.append(pdf_path)] on the file found at that path: the pages of a
    readable document, or the reason of the exception.  A directory cannot
    be opened as a file. *)
Definition pdf_append (n : node) : string + document :=
  match n with
  | File (Pdf pages) => inr pages
  | File (Unreadable reason) => inl reason
  | Dir _ => inl "Is a directory"
  end.

(** Body of the inner loop (lines 65-71): one append attempt inside
    [try]/[except Exception]. *)
Definition add_pdf (folder : string) (st : state) (pdf_file : entry) : state :=
  let pdf_path := Text.os_path_join folder (fst pdf_file) in
  match pdf_append (snd pdf_file) with
  | inr pages =>
      {| merger := merger st ++ pages;
         pdf_count := S (pdf_count st);
         trace := trace st ++ [Append pdf_path (inr pages); Print (Added pdf_path)] |}
  | inl e =>
      {| merger := merger st;
         pdf_count := pdf_count st;
         trace := trace st ++ [Append pdf_path (inl e); Print (ErrorAdding pdf_path e)] |}
  end.

(** [for pdf_file in pdf_files: ...] *)
Definition add_pdfs (folder : string) (pdf_files : list entry) (st : state)
  : state :=
  fold_left (add_pdf folder) pdf_files st.

(** [pdf_files = [f for f in os.listdir(folder) if ...]] followed by
    [pdf_files.sort(key=natural_sort_key)].  Names travel with the node they
    name, which stands for the file [merger.append] will open. *)
Definition pdf_files_of (listing : list entry) : result (list entry) :=
  list_sort (fun e => natural_sort_key (fst e))
            (filter (fun e => is_pdf_name (fst e)) listing).

(** [for folder in all_folders: ...] (lines 56-71).  The sort of a folder's
    file names is outside the [try] block: an exception there ends the run. *)
Fixpoint process_folders (all_folders : list (string * list entry))
         (st : state) : run :=
  match all_folders with
  | [] => {| final := st; raised := None |}
  | (folder, listing) :: rest =>
      let st' := emit st [Listdir folder] in
      match pdf_files_of listing with
      | Raise e => {| final := st'; raised := Some e |}
      | Ok pdf_files => process_folders rest (add_pdfs folder pdf_files st')
      end
  end.

Definition initial : state := {| merger := []; pdf_count := 0; trace := [] |}.

(** Lines 73-80. *)
Definition save_result (output_folder : string) (st : state) : state :=
  if (0 <? pdf_count st)%nat then
    let output_path := Text.os_path_join output_folder "combined_pdf.pdf" in
    emit st
      [Write output_path (merger st); Close; Print
         (SuccessfullyCombined (pdf_count st) output_path)]
  else emit st [Print NoPdfFilesFound].

(** [combine_pdfs(source_folder, output_folder)], lines 28-80.  The two
    sorts (lines 50 and 61) are outside the [try] of line 64, so what they
    raise ends the run; [os.makedirs] and [merger.write] are taken to
    succeed. *)
Definition combine_pdfs (w : world) (source_folder output_folder : string)
  : run :=
  let st0 :=
    if output_exists w then initial
    else emit initial
           [Makedirs output_folder; Print (CreatedOutputFolder output_folder)]
  in
  let st1 := emit st0 [Walk source_folder] in
  match list_sort (fun f => natural_sort_key (fst f)) (os_walk w source_folder) with
  | Raise e => {| final := st1; raised := Some e |}
  | Ok all_folders =>
      let r := process_folders all_folders st1 in
      match raised r with
      | Some _ => r
      | None => {| final := save_result output_folder (final r); raised := None |}
      end
  end.

(** [main()]: the arguments default to ['.'] and ['output']; the process
    ends with status 0 when [combine_pdfs] returns and with status 1 when an
    exception escapes. *)
Definition default_source_folder : string := ".".
Definition default_output_folder : string := "output".

Definition main (w : world) (source_folder output_folder : option string)
  : list event * nat :=
  let src := match source_folder with Some s => s | None => default_source_folder end in
  let out := match output_folder with Some s => s | None => default_output_folder end in
  let r := combine_pdfs w src out in
  (Print (Starting src) :: trace (final r),
   match raised r with None => 0 | Some _ => 1 end).

(** *** Observations on a run *)

(** The paths handed to [merger.append], in order. *)
Fixpoint submitted (t : list event) : list string :=
  match t with
  | [] => []
  | Append p _ :: t' => p :: submitted t'
  | _ :: t' => submitted t'
  end.

(** The successful appends, in order, with their pages. *)
Fixpoint appended (t : list event) : list (string * document) :=
  match t with
  | [] => []
  | Append p (inr pages) :: t' => (p, pages) :: appended t'
  | _ :: t' => appended t'
  end.

(** The files written, in order. *)
Fixpoint written (t : list event) : list (string * document) :=
  match t with
  | [] => []
  | Write p d :: t' => (p, d) :: written t'
  | _ :: t' => written t'
  end.

(** The directories created. *)
Fixpoint created (t : list event) : list string :=
  match t with
  | [] => []
  | Makedirs p :: t' => p :: created t'
  | _ :: t' => created t'
  end.

(** The console. *)
Fixpoint console (t : list event) : list message :=
  match t with
  | [] => []
  | Print m :: t' => m :: console t'
  | _ :: t' => console t'
  end.

(** The documents on disk after the calls of a trace, by path as
    written: [merger.write] opens its path for writing, which replaces what
    was stored under that path.  Two spellings of one file are not
    identified. *)
Fixpoint disk_after (disk : string -> option document) (t : list event)
  : string -> option document :=
  match t with
  | [] => disk
  | Write p d :: t' =>
      disk_after (fun q => if String.eqb q p then Some d else disk q) t'
  | _ :: t' => disk_after disk t'
  end.

End Merger.

(* ===================================================================== *)
(** ** Notions used to state the properties *)
(* ===================================================================== *)

Module Spec.
Import Py NaturalSort Merger.

Definition not_digit (c : ascii) : bool := negb (Text.re_digit c).

(** A split on maximal digit runs: text, digits, text, ..., text.  Text
    pieces hold no decimal digit, digit pieces are non-empty runs of decimal
    digits, and a text piece strictly between two digit runs is not empty
    (otherwise the two runs would be one). *)
Inductive digit_split : list string -> Prop :=
| split_last (t : string) :
    Text.all_chars not_digit t = true -> digit_split [t]
| split_more (t d : string) (rest : list string) :
    Text.all_chars not_digit t = true ->
    d <> EmptyString ->
    Text.all_chars Text.re_digit d = true ->
    (forall t' d' rest', rest = t' :: d' :: rest' -> t' <> EmptyString) ->
    digit_split rest ->
    digit_split (t :: d :: rest).

(** The pieces of a split, joined again. *)
Definition joined (pieces : list string) : string :=
  fold_right String.append EmptyString pieces.

(** A key whose elements alternate in type; [str_first] tells whether the
    first element is a [str]. *)
Fixpoint alternating (str_first : bool) (k : key) : Prop :=
  match k with
  | [] => True
  | TStr _ :: k' => str_first = true /\ alternating false k'
  | TInt _ :: k' => str_first = false /\ alternating true k'
  end.

(** The element at an even index is a [str], at an odd index an [int]. *)
Definition typed_by_parity (k : key) : Prop :=
  forall i t, nth_error k i = Some t ->
    if Nat.even i then exists s, t = TStr s else exists n, t = TInt n.

(** A character that [isdigit] accepts and [\d] does not. *)
Definition superscript (c : ascii) : bool :=
  Text.isdigit_char c && negb (Text.re_digit c).

(** [k1 <= k2] as the sort sees it: [k2 < k1] evaluates to [False]. *)
Definition key_le (k1 k2 : key) : Prop := key_lt k2 k1 = Ok false.

(** Two tokens of the same type. *)
Definition same_kind (x y : token) : Prop :=
  match x, y with
  | TInt _, TInt _ | TStr _, TStr _ => True
  | _, _ => False
  end.

(** Pairs of a key and an item, as the sort arranges them. *)
Definition typed_pairs {A : Type} (l : list (key * A)) : Prop :=
  Forall (fun y => alternating true (fst y)) l.
Definition pair_le {A : Type} (x y : key * A) : Prop :=
  key_le (fst x) (fst y).

(** Two items in the order of their keys under the key function [f]. *)
Definition in_key_order {A : Type} (f : A -> result key) (a b : A) : Prop :=
  exists ka kb, f a = Ok ka /\ f b = Ok kb /\ key_le ka kb.

(** An item with its key. *)
Definition keyed {A : Type} (f : A -> result key) (x : A)
  : result (key * A) :=
  k <- f x ;; Ok (k, x).

(** Two names in natural order: both have a key and the keys are in order. *)
Definition natural_le (s t : string) : Prop :=
  exists ks kt,
    natural_sort_key s = Ok ks /\ natural_sort_key t = Ok kt /\ key_le ks kt.

(** [l'] is [l] sorted by the natural key of [name]. *)
Definition naturally_sorted {A : Type} (name : A -> string) (l l' : list A)
  : Prop :=
  Permutation l l' /\
  StronglySorted (fun a b => natural_le (name a) (name b)) l'.

(** The pages a candidate contributes: those of a readable document, none
    when its append fails. *)
Definition pages_of (e : entry) : document :=
  match pdf_append (snd e) with
  | inr pages => pages
  | inl _ => []
  end.

(** [e] is an entry of the directory found under path [folder] in the tree
    [n] rooted at path [top]. *)
Inductive in_tree : string -> node -> string -> entry -> Prop :=
| in_here top entries e :
    In e entries -> in_tree top (Dir entries) top e
| in_below top entries name child folder e :
    In (name, child) entries ->
    in_tree (Text.os_path_join top name) child folder e ->
    in_tree top (Dir entries) folder e.

(** The paths of all entries with a PDF name in a scan of folders. *)
Definition candidate_paths (scan : list (string * list entry)) : list string :=
  flat_map (fun f => map (fun e => Text.os_path_join (fst f) (fst e))
                         (filter (fun e => is_pdf_name (fst e)) (snd f)))
           scan.

(** The notice of an empty result is all that happened: nothing else was
    printed, no directory created, no file written. *)
Definition only_notice (t : list event) : Prop :=
  console t = [NoPdfFilesFound] /\ created t = [] /\ written t = [].

(** The calls of one append attempt in [folder]. *)
Definition attempt_events (folder : string) (e : entry) : list event :=
  let pdf_path := Text.os_path_join folder (fst e) in
  match pdf_append (snd e) with
  | inr pages => [Append pdf_path (inr pages); Print (Added pdf_path)]
  | inl reason =>
      [Append pdf_path (inl reason); Print (ErrorAdding pdf_path reason)]
  end.

(** Whether the append of a candidate succeeds. *)
Definition succeeded (e : entry) : bool :=
  match pdf_append (snd e) with
  | inr _ => true
  | inl _ => false
  end.

(** A merge plan: the folders in processing order, each with its
    candidates in processing order. *)
Definition plan : Type := list (string * list entry).

Definition folder_events (p : string * list entry) : list event :=
  Listdir (fst p) :: flat_map (attempt_events (fst p)) (snd p).

Definition plan_events (pl : plan) : list event := flat_map folder_events pl.

Definition plan_pages (pl : plan) : document :=
  flat_map (fun p => flat_map pages_of (snd p)) pl.

Definition plan_count (pl : plan) : nat :=
  List.length (filter succeeded (flat_map snd pl)).

Definition plan_paths (pl : plan) : list string :=
  flat_map (fun p => map (fun e => Text.os_path_join (fst p) (fst e)) (snd p))
           pl.

(** [p] plans the folder [f]: same path, and the candidates of its listing
    as the script sorts them. *)
Definition plans_folder (f p : string * list entry) : Prop :=
  fst p = fst f /\ pdf_files_of (snd f) = Ok (snd p).

(** The calls made before the tree is walked. *)
Definition prepare_events (w : world) (output_folder : string) : list event :=
  if output_exists w then []
  else [Makedirs output_folder; Print (CreatedOutputFolder output_folder)].

(** The calls made after the loop, for a given count and document. *)
Definition save_events (output_folder : string) (count : nat) (doc : document)
  : list event :=
  if (0 <? count)%nat then
    [Write (Text.os_path_join output_folder "combined_pdf.pdf") doc; Close;
     (Print (SuccessfullyCombined count
               (Text.os_path_join output_folder "combined_pdf.pdf")))]
  else [Print NoPdfFilesFound].

(** The key function of both sorts of the script, on named items. *)
Definition name_key {A : Type} (x : string * A) : result key :=
  natural_sort_key (fst x).

(** Induction on file trees, with the hypothesis available for every entry
    of a directory. *)
Fixpoint node_induction (P : node -> Prop)
         (HF : forall c, P (File c))
         (HD : forall entries,
             Forall (fun e => P (snd e)) entries -> P (Dir entries))
         (n : node) {struct n} : P n :=
  match n with
  | File c => HF c
  | Dir entries =>
      HD entries
         ((fix all (es : list entry) : Forall (fun e => P (snd e)) es :=
             match es with
             | [] => Forall_nil _
             | (name, child) :: es' =>
                 Forall_cons (name, child)
                             (node_induction P HF HD child) (all es')
             end) entries)
  end.

(** Two states with the same result: same document, same count, same
    successful appends, same files written. *)
Definition same_outcome (st st' : state) : Prop :=
  merger st = merger st' /\
  pdf_count st = pdf_count st' /\
  appended (trace st) = appended (trace st') /\
  written (trace st) = written (trace st').

(** Two entries that the run cannot tell apart: same name, and the merger
    reads the same from both. *)
Definition same_file (e e' : entry) : Prop :=
  fst e = fst e' /\ pdf_append (snd e) = pdf_append (snd e').

(** The folder [f'] is the folder [f], possibly without the entry [x]:
    same path, and the same entries in the same order, except that one
    occurrence of [x] may be missing. *)
Definition similar (x : entry) (f f' : string * list entry) : Prop :=
  fst f = fst f' /\
  (Forall2 same_file (snd f) (snd f') \/
   exists l1 l2, snd f = l1 ++ x :: l2 /\ Forall2 same_file (l1 ++ l2) (snd f')).

(** Pairs with the same key whose items are related by [R]. *)
Definition related_pairs {A : Type} (R : A -> A -> Prop) (p q : key * A)
  : Prop :=
  fst p = fst q /\ R (snd p) (snd q).

(** The token a piece of the split stands for: the value of a digit run,
    or the lowercase of a text without decimal digits. *)
Definition piece_token (piece : string) (t : token) : Prop :=
  (piece <> EmptyString /\ Text.all_chars Text.re_digit piece = true /\
   exists n, Text.decimal_value 0 piece = Some n /\ t = TInt n) \/
  (Text.all_chars not_digit piece = true /\ t = TStr (Text.lower piece)).

(** The run ends with an exception, as a fatal error would. *)
Definition aborts (r : run) : Prop := exists e, raised r = Some e.

(** A name that has a sort key. *)
Definition sortable (s : string) : Prop :=
  exists k, natural_sort_key s = Ok k.

(** [k1 == k2] on keys. *)
Fixpoint key_eqb (a b : key) : bool :=
  match a, b with
  | [], [] => true
  | x :: a', y :: b' => token_eqb x y && key_eqb a' b'
  | _, _ => false
  end.

(** The item [x] has the key [k] under the key function [f]. *)
Definition has_key {A : Type} (f : A -> result key) (k : key) (x : A) : bool :=
  match f x with
  | Ok k' => key_eqb k' k
  | Raise _ => false
  end.

(** The lines that report an append, and those that report a failure. *)
Definition is_added (m : message) : bool :=
  match m with
  | Added _ => true
  | _ => false
  end.

Definition is_error (m : message) : bool :=
  match m with
  | ErrorAdding _ _ => true
  | _ => false
  end.

(** Every folder path of a scan, and every entry with a PDF name in its
    folders, has a sort key. *)
Definition all_sortable (scan : list (string * list entry)) : Prop :=
  forall folder listing,
    In (folder, listing) scan ->
    sortable folder /\
    forall name child,
      In (name, child) listing -> is_pdf_name name = true -> sortable name.

(** What one append attempt adds to the merger: the path with the pages of
    the file when it can be read, nothing when the append raises. *)
Definition attempt_appended (folder : string) (e : entry)
  : list (string * document) :=
  match pdf_append (snd e) with
  | inr pages => [(Text.os_path_join folder (fst e), pages)]
  | inl _ => []
  end.

(** What a plan adds to the merger, in order. *)
Definition plan_appended (pl : plan) : list (string * document) :=
  flat_map (fun p => flat_map (attempt_appended (fst p)) (snd p)) pl.

(** Every append that raised is followed at once by the line that reports
    it, with the same path and the same reason. *)
Definition failures_reported (t : list event) : Prop :=
  forall t1 t2 p reason,
    t = t1 ++ Append p (inl reason) :: t2 ->
    exists t3, t2 = Print (ErrorAdding p reason) :: t3.

(** A run of decimal digits longer than the digit limit of [int]. *)
Definition long_run (p : string) : Prop :=
  Text.all_chars Text.re_digit p = true /\ within_limit p = false.

(** A piece made of superscript digits only, and not empty. *)
Definition superscript_piece (p : string) : Prop :=
  p <> EmptyString /\ Text.all_chars superscript p = true.

(** Two folders with the same path and the same candidates: the entries
    with a PDF name are the same, in the same order, as far as the run can
    tell. *)
Definition same_candidates (f f' : string * list entry) : Prop :=
  fst f = fst f' /\
  Forall2 same_file (filter (fun e => is_pdf_name (fst e)) (snd f))
                    (filter (fun e => is_pdf_name (fst e)) (snd f')).

End Spec.

(* ===================================================================== *)
(** ** Sample inputs *)
(* ===================================================================== *)

Module Examples.
Import Merger.

Definition empty_disk : string -> option document := fun _ => None.

(** The one-character string U+00B2, SUPERSCRIPT TWO. *)
Definition superscript_two : string := String "178"%char EmptyString.

(** The name "2" followed by U+00B2. *)
Definition two_squared : string := String "2"%char superscript_two.

(** The name "1", U+00B2, "3.pdf". *)
Definition squared_pdf : string :=
  String "1"%char (String "178"%char "3.pdf").

(** Three numbered files out of order, a text file, and a sub-folder with
    an unreadable file. *)
Definition library : world :=
  {| output_exists := false;
     source := Some (Dir [("a10.pdf", File (Pdf [10]));
                          ("a2.pdf", File (Pdf [2; 3]));
                          ("sub", Dir [("x.PDF", File (Unreadable "bad"));
                                       ("y.txt", File (Pdf [99]));
                                       ("b.pdf", File (Pdf [7]))]);
                          ("a1.pdf", File (Pdf [1]))]);
     stored := empty_disk |}.

(** No source folder at all. *)
Definition missing_source : world :=
  {| output_exists := false; source := None; stored := empty_disk |}.

(** A source folder without any file. *)
Definition empty_source : world :=
  {| output_exists := false; source := Some (Dir []); stored := empty_disk |}.

(** One PDF file next to an empty folder named "2" U+00B2. *)
Definition squared_folder : world :=
  {| output_exists := true;
     source := Some (Dir [("a.pdf", File (Pdf [1]));
                          (two_squared, Dir [])]);
     stored := empty_disk |}.

(** One PDF file next to a folder holding a PDF named "1" U+00B2 "3.pdf". *)
Definition squared_file : world :=
  {| output_exists := true;
     source := Some (Dir [("a.pdf", File (Pdf [1]));
                          ("x", Dir [(squared_pdf, File (Pdf [5]))])]);
     stored := empty_disk |}.

(** The library without its unreadable file. *)
Definition library_without_unreadable : world :=
  {| output_exists := false;
     source := Some (Dir [("a10.pdf", File (Pdf [10]));
                          ("a2.pdf", File (Pdf [2; 3]));
                          ("sub", Dir [("y.txt", File (Pdf [99]));
                                       ("b.pdf", File (Pdf [7]))]);
                          ("a1.pdf", File (Pdf [1]))]);
     stored := empty_disk |}.

(** The library without its text file. *)
Definition library_without_text : world :=
  {| output_exists := false;
     source := Some (Dir [("a10.pdf", File (Pdf [10]));
                          ("a2.pdf", File (Pdf [2; 3]));
                          ("sub", Dir [("x.PDF", File (Unreadable "bad"));
                                       ("b.pdf", File (Pdf [7]))]);
                          ("a1.pdf", File (Pdf [1]))]);
     stored := empty_disk |}.

(** A working directory for a run with the default arguments: the output
    folder left by an earlier run, one PDF file and an empty folder named
    "2" U+00B2. *)
Definition working_directory : world :=
  {| output_exists := true;
     source := Some (Dir [("a.pdf", File (Pdf [1]));
                          ("output", Dir [("combined_pdf.pdf", File (Pdf [1]))]);
                          (two_squared, Dir [])]);
     stored := empty_disk |}.

(** A directory whose name ends in .pdf, holding a PDF file. *)
Definition folder_named_pdf : world :=
  {| output_exists := true;
     source := Some (Dir [("scans.pdf", Dir [("p1.pdf", File (Pdf [4]))])]);
     stored := empty_disk |}.

End Examples.

(* ===================================================================== *)
(** ** Facts about text *)
(* ===================================================================== *)

Module TextFacts.
Import Text Spec.

Lemma code_inj (x y : ascii) : code x = code y -> x = y.
Proof.
  unfold code. intros H.
  rewrite <- (ascii_N_embedding x), <- (ascii_N_embedding y). now rewrite H.
Qed.

Lemma str_ltb_irrefl (a : string) : str_ltb a a = false.
Proof.
  induction a as [|x a IH]; simpl; [reflexivity|].
  rewrite N.ltb_irrefl, N.eqb_refl. exact IH.
Qed.

Lemma str_ltb_trichotomy (a b : string) :
  a <> b -> str_ltb a b = negb (str_ltb b a).
Proof.
  revert b. induction a as [|x a IH]; intros [|y b] Hne; simpl;
    try reflexivity; try congruence.
  destruct (N.ltb_spec (code x) (code y)) as [Hlt|Hge].
  - assert ((code y <? code x)%N = false) as -> by (apply N.ltb_ge; lia).
    assert ((code y =? code x)%N = false) as -> by (apply N.eqb_neq; lia).
    reflexivity.
  - destruct (N.eqb_spec (code x) (code y)) as [Heq|Hneq].
    + rewrite Heq, N.ltb_irrefl, N.eqb_refl.
      apply IH. intros ->. apply code_inj in Heq. congruence.
    + assert ((code y <? code x)%N = true) as -> by (apply N.ltb_lt; lia).
      reflexivity.
Qed.

Lemma str_ltb_trans (a b c : string) :
  str_ltb a b = true -> str_ltb b c = true -> str_ltb a c = true.
Proof.
  revert b c. induction a as [|x a IH]; intros [|y b] [|z c]; simpl;
    try congruence.
  destruct (N.ltb_spec (code x) (code y)) as [Hxy|Hxy];
    destruct (N.ltb_spec (code y) (code z)) as [Hyz|Hyz];
    destruct (N.ltb_spec (code x) (code z)) as [Hxz|Hxz];
    try reflexivity; try lia;
    destruct (N.eqb_spec (code x) (code y));
    destruct (N.eqb_spec (code y) (code z));
    destruct (N.eqb_spec (code x) (code z));
    try congruence; try lia.
  apply IH.
Qed.

Lemma endswith_refl (s : string) : endswith s s = true.
Proof. destruct s; cbn [endswith]; now rewrite String.eqb_refl. Qed.

Lemma endswith_cons (c : ascii) (s suffix : string) :
  endswith s suffix = true -> endswith (String c s) suffix = true.
Proof.
  intros H. cbn [endswith]. now destruct (String.eqb (String c s) suffix).
Qed.

Lemma endswith_app (a s suffix : string) :
  endswith s suffix = true -> endswith (a ++ s) suffix = true.
Proof.
  intros H. induction a as [|c a IH]; simpl append; [exact H|].
  now apply endswith_cons.
Qed.

Lemma lower_app (a b : string) :
  lower (a ++ b) = (lower a ++ lower b)%string.
Proof. induction a as [|c a IH]; simpl; [reflexivity|now rewrite IH]. Qed.

(** *** re.split *)

Lemma re_split_nonempty (s : string) : re_split s <> [].
Proof.
  induction s as [|c s IH]; simpl; [discriminate|].
  destruct (re_split s) as [|p0 rest]; [contradiction|].
  destruct (re_digit c); [|discriminate].
  destruct p0; [destruct rest|]; discriminate.
Qed.

Lemma re_split_joined (s : string) : joined (re_split s) = s.
Proof.
  induction s as [|c s IH]; [reflexivity|]. simpl re_split.
  destruct (re_split s) as [|p0 rest] eqn:E.
  { now apply re_split_nonempty in E. }
  destruct (re_digit c).
  - destruct p0 as [|x p0]; [destruct rest as [|d rest']|];
      simpl in *; now rewrite IH.
  - simpl in *. now rewrite IH.
Qed.

(** The head of a split is empty exactly when the string is empty or starts
    with a decimal digit. *)
Lemma re_split_head_text (s : string) :
  match re_split s with
  | EmptyString :: _ :: _ =>
      exists c s', s = String c s' /\ re_digit c = true
  | _ => True
  end.
Proof.
  destruct s as [|c s]; [exact I|]. simpl.
  destruct (re_split s) as [|p0 rest]; [exact I|].
  destruct (re_digit c) eqn:Hc.
  - destruct p0; [destruct rest|]; eauto.
  - exact I.
Qed.

Lemma re_split_digit_split (s : string) : digit_split (re_split s).
Proof.
  induction s as [|c s IH]; [now constructor|]. simpl.
  pose proof (re_split_head_text s) as Hhead.
  destruct (re_split s) as [|p0 rest] eqn:E.
  { now apply re_split_nonempty in E. }
  destruct (re_digit c) eqn:Hc.
  - destruct p0 as [|x p0].
    + destruct rest as [|d rest'].
      * constructor; try easy. simpl. now rewrite Hc.
      * inversion IH; subst.
        constructor; try easy. simpl. rewrite Hc. assumption.
    + constructor; try easy.
      * simpl. now rewrite Hc.
      * intros t' d' rest' Heq. injection Heq as <- _. discriminate.
  - inversion IH; subst.
    + constructor. simpl. unfold not_digit at 1. now rewrite Hc.
    + constructor; try assumption.
      simpl. unfold not_digit at 1. now rewrite Hc.
Qed.

End TextFacts.

(* ===================================================================== *)
(** ** Facts about keys and their order *)
(* ===================================================================== *)

Module KeyFacts.
Import Text Py NaturalSort Spec TextFacts.

Lemma bind_ok {A B : Type} (r : result A) (f : A -> result B) (b : B) :
  bind r f = Ok b -> exists a, r = Ok a /\ f a = Ok b.
Proof. destruct r as [a|e]; simpl; [eauto|discriminate]. Qed.

Lemma comprehension_ok {A B : Type} (f : A -> result B) (l : list A)
      (r : list B) :
  comprehension f l = Ok r -> Forall2 (fun x y => f x = Ok y) l r.
Proof.
  revert r. induction l as [|x l IH]; simpl; intros r H.
  - injection H as <-. constructor.
  - apply bind_ok in H as (y & Hy & H).
    apply bind_ok in H as (ys & Hys & H). injection H as <-.
    constructor; auto.
Qed.

Lemma comprehension_all_ok {A B : Type} (f : A -> result B) (l : list A) :
  (forall x, In x l -> exists y, f x = Ok y) ->
  exists r, comprehension f l = Ok r.
Proof.
  induction l as [|x l IH]; simpl; intros H; [eauto|].
  destruct (H x (or_introl eq_refl)) as (y & ->).
  destruct IH as (r & ->); [intros; apply H; now right|]. simpl. eauto.
Qed.

Lemma comprehension_raise {A B : Type} (f : A -> result B) (l : list A)
      (e : exn) :
  comprehension f l = Raise e -> exists x, In x l /\ f x = Raise e.
Proof.
  induction l as [|x l IH]; simpl; [discriminate|].
  destruct (f x) as [y|e'] eqn:Hx; simpl.
  - destruct (comprehension f l) as [ys|e'']; simpl; [discriminate|].
    intros H. injection H as ->. destruct IH as (x' & ? & ?); eauto.
  - intros H. injection H as ->. eauto.
Qed.

(** *** The tokens of the pieces of a split *)

Lemma re_digit_isdigit_char (c : ascii) :
  re_digit c = true -> isdigit_char c = true.
Proof. unfold isdigit_char. now intros ->. Qed.

Lemma all_chars_impl (p q : ascii -> bool) (s : string) :
  (forall c, p c = true -> q c = true) ->
  all_chars p s = true -> all_chars q s = true.
Proof.
  intros Hpq. induction s as [|c s IH]; simpl; [reflexivity|].
  intros H. apply andb_true_iff in H as [Hc Hs].
  now rewrite (Hpq _ Hc), IH.
Qed.

Lemma decimal_value_digits (d : string) (acc : N) :
  all_chars re_digit d = true -> exists n, decimal_value acc d = Some n.
Proof.
  revert acc. induction d as [|c d IH]; simpl; intros acc H; [eauto|].
  apply andb_true_iff in H as [-> Hd]. now apply IH.
Qed.

(** A non-empty run of decimal digits becomes an [int] when it is within
    the digit limit, and is rejected when it is longer. *)
Lemma key_token_run (d : string) :
  d <> EmptyString -> all_chars re_digit d = true ->
  exists n, decimal_value 0 d = Some n /\
            key_token d = (if within_limit d then Ok (TInt n)
                           else Raise (ValueError d)).
Proof.
  intros Hne Hd. unfold key_token.
  assert (isdigit d = true) as ->.
  { destruct d; [congruence|]. unfold isdigit.
    eapply all_chars_impl; [apply re_digit_isdigit_char|exact Hd]. }
  destruct (decimal_value_digits d 0 Hd) as (n & Hn).
  exists n. split; [exact Hn|].
  unfold int. destruct d; [congruence|]. rewrite Hn.
  now destruct (within_limit _).
Qed.

Lemma key_token_digits (d : string) :
  d <> EmptyString -> all_chars re_digit d = true -> within_limit d = true ->
  exists n, key_token d = Ok (TInt n) /\ decimal_value 0 d = Some n.
Proof.
  intros Hne Hd Hl. destruct (key_token_run d Hne Hd) as (n & Hn & E).
  rewrite Hl in E. eauto.
Qed.

Lemma key_token_digits_ok (d : string) (y : token) :
  d <> EmptyString -> all_chars re_digit d = true -> key_token d = Ok y ->
  exists n, y = TInt n /\ decimal_value 0 d = Some n /\
            within_limit d = true.
Proof.
  intros Hne Hd Hy. destruct (key_token_run d Hne Hd) as (n & Hn & E).
  rewrite E in Hy. destruct (within_limit d); [|discriminate].
  injection Hy as <-. eauto.
Qed.

(** A piece without decimal digits becomes its lowercase text, unless
    [isdigit] accepts it: then [int] is called on it and rejects it. *)
Lemma key_token_text (t : string) :
  all_chars not_digit t = true ->
  (isdigit t = false /\ key_token t = Ok (TStr (lower t))) \/
  (isdigit t = true /\ key_token t = Raise (ValueError t)).
Proof.
  intros Ht. unfold key_token. destruct (isdigit t) eqn:Hd; [right|left; auto].
  split; [reflexivity|].
  destruct t as [|c t]; [discriminate|].
  simpl in Ht. apply andb_true_iff in Ht as [Hc _].
  unfold not_digit in Hc. apply negb_true_iff in Hc.
  unfold int. simpl. now rewrite Hc.
Qed.

Lemma key_token_not_type_error (c : string) : key_token c <> Raise TypeError.
Proof.
  unfold key_token, int. destruct (isdigit c); [|discriminate].
  destruct c; [discriminate|].
  destruct (decimal_value 0 _); [destruct (within_limit _)|]; discriminate.
Qed.

Lemma tokens_alternate (pieces : list string) (k : key) :
  digit_split pieces -> comprehension key_token pieces = Ok k ->
  alternating true k.
Proof.
  intros Hs. revert k. induction Hs as [t Ht|t d rest Ht Hne Hd _ Hrest IH];
    intros k Hk; apply comprehension_ok in Hk.
  - inversion Hk as [|? y ? ? Hy Hnil]; subst. inversion Hnil; subst.
    destruct (key_token_text t Ht) as [[_ E]|[_ E]]; rewrite E in Hy;
      [|discriminate].
    injection Hy as <-. simpl. auto.
  - inversion Hk as [|? y1 ? k1 Hy1 Hk1]; subst.
    inversion Hk1 as [|? y2 ? k2 Hy2 Hk2]; subst.
    destruct (key_token_text t Ht) as [[_ E]|[_ E]]; rewrite E in Hy1;
      [|discriminate].
    injection Hy1 as <-.
    destruct (key_token_digits_ok d y2 Hne Hd Hy2) as (n & -> & _).
    simpl. repeat split.
    apply IH. clear -Hk2.
    induction Hk2 as [|x y l l' Hxy _ IHl]; simpl; [reflexivity|].
    now rewrite Hxy, IHl.
Qed.

Lemma natural_sort_key_alternating (s : string) (k : key) :
  natural_sort_key s = Ok k -> alternating true k.
Proof. apply tokens_alternate, re_split_digit_split. Qed.

Lemma natural_sort_key_not_type_error (s : string) :
  natural_sort_key s <> Raise TypeError.
Proof.
  intros H. apply comprehension_raise in H as (c & _ & H).
  now apply key_token_not_type_error in H.
Qed.

Lemma alternating_parity (k : key) (b : bool) :
  alternating b k ->
  forall i t, nth_error k i = Some t ->
    if Bool.eqb (Nat.even i) b then exists s, t = TStr s
    else exists n, t = TInt n.
Proof.
  revert b. induction k as [|x k IH]; intros b Halt i t Hnth.
  - destruct i; discriminate.
  - destruct i as [|i].
    + injection Hnth as <-. destruct x, b; simpl in *; destruct Halt; eauto;
        discriminate.
    + simpl in Hnth. rewrite Nat.even_succ, <- Nat.negb_even.
      destruct x; simpl in Halt; destruct Halt as [-> Halt];
        specialize (IH _ Halt i t Hnth);
        destruct (Nat.even i); simpl in *; exact IH.
Qed.

Lemma alternating_typed (k : key) : alternating true k -> typed_by_parity k.
Proof.
  intros H i t Hnth. pose proof (alternating_parity k true H i t Hnth) as P.
  now destruct (Nat.even i).
Qed.

(** *** The order of tokens and keys *)

Lemma alternating_heads (b : bool) (x y : token) (k1 k2 : key) :
  alternating b (x :: k1) -> alternating b (y :: k2) ->
  same_kind x y /\ alternating (negb b) k1 /\ alternating (negb b) k2.
Proof.
  destruct x, y; simpl; intros [-> H1] [E H2]; try discriminate; auto.
Qed.

Lemma token_eqb_eq (x y : token) : token_eqb x y = true <-> x = y.
Proof.
  destruct x, y; simpl; split; try discriminate; intros H.
  - apply N.eqb_eq in H. now subst.
  - injection H as ->. apply N.eqb_refl.
  - apply String.eqb_eq in H. now subst.
  - injection H as ->. apply String.eqb_refl.
Qed.

Lemma token_eqb_refl (x : token) : token_eqb x x = true.
Proof. now apply token_eqb_eq. Qed.

Lemma token_eqb_sym (x y : token) : token_eqb x y = token_eqb y x.
Proof.
  destruct (token_eqb x y) eqn:E.
  - apply token_eqb_eq in E as ->. now rewrite token_eqb_refl.
  - destruct (token_eqb y x) eqn:E'; [|reflexivity].
    apply token_eqb_eq in E' as ->. now rewrite token_eqb_refl in E.
Qed.

Lemma token_lt_total (x y : token) :
  same_kind x y -> token_eqb x y = false ->
  exists r, token_lt x y = Ok r /\ token_lt y x = Ok (negb r).
Proof.
  destruct x as [a|a], y as [b|b]; simpl; try contradiction; intros _ Hne.
  - exists (a <? b)%N. split; [reflexivity|]. f_equal.
    apply N.eqb_neq in Hne.
    destruct (N.ltb_spec a b), (N.ltb_spec b a); simpl; try reflexivity; lia.
  - exists (str_ltb a b). split; [reflexivity|]. f_equal.
    rewrite (str_ltb_trichotomy a b), negb_involutive; [reflexivity|].
    intros ->. now rewrite String.eqb_refl in Hne.
Qed.

Lemma token_lt_trans (x y z : token) :
  token_lt x y = Ok true -> token_lt y z = Ok true -> token_lt x z = Ok true.
Proof.
  destruct x as [a|a], y as [b|b], z as [c|c]; simpl; try discriminate;
    intros H1 H2; injection H1 as H1; injection H2 as H2; f_equal.
  - apply N.ltb_lt in H1, H2. apply N.ltb_lt. lia.
  - eapply str_ltb_trans; eassumption.
Qed.

Lemma token_lt_irrefl (x : token) : token_lt x x <> Ok true.
Proof.
  destruct x; simpl; intros H; injection H as H.
  - rewrite N.ltb_irrefl in H. discriminate.
  - rewrite str_ltb_irrefl in H. discriminate.
Qed.

(** Keys of alternating type are always comparable. *)
Lemma key_lt_defined (a b : key) (p : bool) :
  alternating p a -> alternating p b -> exists r, key_lt a b = Ok r.
Proof.
  revert b p. induction a as [|x a IH]; intros [|y b] p Ha Hb; simpl; eauto.
  destruct (alternating_heads _ _ _ _ _ Ha Hb) as (Hk & Ha' & Hb').
  destruct (token_eqb x y) eqn:E; [eauto|].
  destruct (token_lt_total x y Hk E) as (r & -> & _). eauto.
Qed.

Lemma key_lt_antisym (a b : key) (p : bool) :
  alternating p a -> alternating p b ->
  key_lt a b = Ok true -> key_lt b a = Ok false.
Proof.
  revert b p. induction a as [|x a IH]; intros [|y b] p Ha Hb; simpl;
    try congruence.
  destruct (alternating_heads _ _ _ _ _ Ha Hb) as (Hk & Ha' & Hb').
  rewrite (token_eqb_sym y x).
  destruct (token_eqb x y) eqn:E; [eauto|].
  destruct (token_lt_total x y Hk E) as (r & -> & ->).
  intros H. injection H as ->. reflexivity.
Qed.

Lemma key_lt_irrefl (a : key) : key_lt a a = Ok false.
Proof.
  induction a as [|x a IH]; simpl; [reflexivity|].
  now rewrite token_eqb_refl.
Qed.

(** [key_le] is total on keys of alternating type. *)
Lemma key_le_total (a b : key) (p : bool) :
  alternating p a -> alternating p b -> key_le a b \/ key_le b a.
Proof.
  intros Ha Hb. unfold key_le.
  destruct (key_lt_defined b a p Hb Ha) as ([|] & H); [|now left].
  right. eapply key_lt_antisym; eassumption.
Qed.

Lemma key_le_trans (a b c : key) (p : bool) :
  alternating p a -> alternating p b -> alternating p c ->
  key_le a b -> key_le b c -> key_le a c.
Proof.
  unfold key_le. revert b c p.
  induction a as [|x a IH]; intros [|y b] [|z c] p Ha Hb Hc; simpl;
    try congruence.
  destruct (alternating_heads _ _ _ _ _ Ha Hb) as (Hxy & Ha' & Hb').
  destruct (alternating_heads _ _ _ _ _ Hb Hc) as (Hyz & _ & Hc').
  destruct (token_eqb y x) eqn:Eyx.
  - apply token_eqb_eq in Eyx as ->.
    destruct (token_eqb z x) eqn:Ezx; [eapply IH; eassumption|auto].
  - destruct (token_eqb z y) eqn:Ezy.
    + apply token_eqb_eq in Ezy as ->. rewrite Eyx. auto.
    + intros H1 H2.
      assert (Hxz : same_kind z x) by (destruct x, y, z; simpl in *; tauto).
      assert (Hyx : same_kind y x) by (destruct x, y; simpl in *; tauto).
      assert (Hzy : same_kind z y) by (destruct z, y; simpl in *; tauto).
      destruct (token_lt_total y x Hyx Eyx) as (r1 & E1 & E1').
      destruct (token_lt_total z y Hzy Ezy) as (r2 & E2 & E2').
      rewrite E1 in H1. injection H1 as ->.
      rewrite E2 in H2. injection H2 as ->. simpl in *.
      pose proof (token_lt_trans _ _ _ E1' E2') as Hlt.
      destruct (token_eqb z x) eqn:Ezx.
      * apply token_eqb_eq in Ezx as ->. now apply token_lt_irrefl in Hlt.
      * destruct (token_lt_total z x Hxz Ezx) as (r3 & E3 & E3').
        rewrite E3. rewrite Hlt in E3'. injection E3' as E3'.
        destruct r3; [discriminate|reflexivity].
Qed.

End KeyFacts.

(* ===================================================================== *)
(** ** Facts about list.sort *)
(* ===================================================================== *)

Module SortFacts.
Import Py Spec KeyFacts.

Section Pairs.
Context {A : Type}.
Implicit Types (x y : key * A) (l r : list (key * A)).

Lemma insert_ok x l :
  alternating true (fst x) -> typed_pairs l -> exists r, insert x l = Ok r.
Proof.
  intros Hx Hl. induction Hl as [|y l Hy _ [r IH]]; simpl; [eauto|].
  destruct (key_lt_defined (fst y) (fst x) true Hy Hx) as ([|] & ->); simpl;
    [rewrite IH; simpl|]; eauto.
Qed.

Lemma insert_perm x l r : insert x l = Ok r -> Permutation (x :: l) r.
Proof.
  revert r. induction l as [|y l IH]; simpl; intros r H.
  - injection H as <-. reflexivity.
  - apply bind_ok in H as ([|] & _ & H).
    + apply bind_ok in H as (r' & Hr' & H). injection H as <-.
      rewrite perm_swap. now constructor; apply IH.
    + injection H as <-. reflexivity.
Qed.

Lemma insert_typed x l r :
  alternating true (fst x) -> typed_pairs l -> insert x l = Ok r ->
  typed_pairs r.
Proof.
  intros Hx Hl H. apply insert_perm in H.
  eapply Permutation_Forall; [exact H|]. now constructor.
Qed.

Lemma insert_sorted x l r :
  alternating true (fst x) -> typed_pairs l ->
  StronglySorted pair_le l -> insert x l = Ok r -> StronglySorted pair_le r.
Proof.
  intros Hx Hl Hs. revert r.
  induction Hs as [|y l Hs IH Hy]; simpl; intros r H.
  - injection H as <-. repeat constructor.
  - inversion Hl as [|? ? Hty Hl']; subst.
    apply bind_ok in H as (b & Hb & H). destruct b.
    + apply bind_ok in H as (r' & Hr' & H). injection H as <-.
      constructor; [now apply IH|].
      apply insert_perm in Hr' as P.
      eapply Permutation_Forall; [exact P|].
      constructor; [|exact Hy].
      unfold pair_le, key_le. eapply key_lt_antisym; eassumption.
    + injection H as <-.
      constructor; [now constructor|].
      constructor; [exact Hb|].
      rewrite Forall_forall in Hy, Hl'. apply Forall_forall. intros z Hz.
      unfold pair_le. eapply (key_le_trans _ (fst y) _ true); auto.
      now apply Hy.
Qed.

Lemma sort_pairs_perm l r : sort_pairs l = Ok r -> Permutation l r.
Proof.
  revert r. induction l as [|x l IH]; simpl; intros r H.
  - injection H as <-. reflexivity.
  - apply bind_ok in H as (r' & Hr' & H). apply insert_perm in H.
    rewrite <- H. now constructor; apply IH.
Qed.

Lemma sort_pairs_ok l : typed_pairs l -> exists r, sort_pairs l = Ok r.
Proof.
  induction 1 as [|x l Hx Hl [r IH]]; simpl; [eauto|]. rewrite IH. simpl.
  apply insert_ok; [exact Hx|].
  eapply Permutation_Forall; [apply sort_pairs_perm; exact IH|exact Hl].
Qed.

Lemma sort_pairs_sorted l r :
  typed_pairs l -> sort_pairs l = Ok r -> StronglySorted pair_le r.
Proof.
  intros Hl. revert r. induction Hl as [|x l Hx Hl IH]; simpl; intros r H.
  - injection H as <-. constructor.
  - apply bind_ok in H as (r' & Hr' & H).
    apply (insert_sorted x r' r Hx); [|apply IH; exact Hr'|exact H].
    eapply Permutation_Forall; [apply sort_pairs_perm; exact Hr'|exact Hl].
Qed.
End Pairs.

Section ByKey.
Context {A : Type} (f : A -> result key).
Hypothesis f_alternating : forall x k, f x = Ok k -> alternating true k.

Lemma keyed_ok x p : keyed f x = Ok p -> f x = Ok (fst p) /\ snd p = x.
Proof.
  unfold keyed. intros H. apply bind_ok in H as (k & Hk & H).
  injection H as <-. auto.
Qed.

Lemma keyed_list l kl :
  comprehension (keyed f) l = Ok kl ->
  map snd kl = l /\ Forall (fun p => f (snd p) = Ok (fst p)) kl.
Proof.
  intros H. apply comprehension_ok in H.
  induction H as [|x p l kl Hp _ [IH1 IH2]]; simpl; [auto|].
  apply keyed_ok in Hp as [Hk Hs]. split.
  - now rewrite Hs, IH1.
  - constructor; [now rewrite Hs|exact IH2].
Qed.

Lemma keyed_typed kl :
  Forall (fun p => f (snd p) = Ok (fst p)) kl -> typed_pairs kl.
Proof.
  apply Forall_impl. intros p Hp. eapply f_alternating, Hp.
Qed.

(** The sort raises exactly what the key of some item raises. *)
Lemma list_sort_raise l e :
  list_sort f l = Raise e -> exists x, In x l /\ f x = Raise e.
Proof.
  unfold list_sort. fold (keyed f).
  destruct (comprehension (keyed f) l) as [kl|e'] eqn:Hkl; simpl.
  - destruct (keyed_list l kl Hkl) as [_ Hf].
    destruct (sort_pairs_ok kl (keyed_typed kl Hf)) as (r & ->).
    discriminate.
  - intros H. injection H as ->.
    apply comprehension_raise in Hkl as (x & Hin & Hx).
    exists x. split; [exact Hin|].
    unfold keyed in Hx. destruct (f x); simpl in Hx; congruence.
Qed.

(** When every item has a key, the sort returns. *)
Lemma list_sort_ok l :
  (forall x, In x l -> exists k, f x = Ok k) -> exists r, list_sort f l = Ok r.
Proof.
  intros H. destruct (list_sort f l) as [r|e] eqn:E; [eauto|].
  apply list_sort_raise in E as (x & Hin & Hx).
  destruct (H x Hin) as (k & Hk). congruence.
Qed.

Lemma list_sort_keys l r :
  list_sort f l = Ok r -> forall x, In x l -> exists k, f x = Ok k.
Proof.
  unfold list_sort. fold (keyed f). intros H x Hin.
  apply bind_ok in H as (kl & Hkl & _).
  destruct (keyed_list l kl Hkl) as [Hm Hf]. rewrite <- Hm in Hin.
  apply in_map_iff in Hin as (p & <- & Hp).
  rewrite Forall_forall in Hf. eauto.
Qed.

(** What the sort returns is a rearrangement of the list in ascending
    order of key. *)
Lemma list_sort_sorted l r :
  list_sort f l = Ok r ->
  Permutation l r /\ StronglySorted (in_key_order f) r.
Proof.
  unfold list_sort. fold (keyed f). intros H.
  apply bind_ok in H as (kl & Hkl & H).
  apply bind_ok in H as (sl & Hsl & H). injection H as <-.
  destruct (keyed_list l kl Hkl) as [Hm Hf].
  pose proof (sort_pairs_perm kl sl Hsl) as P.
  split.
  - rewrite <- Hm. now apply Permutation_map.
  - pose proof (sort_pairs_sorted kl sl (keyed_typed kl Hf) Hsl) as Hs.
    assert (Hf' : Forall (fun p => f (snd p) = Ok (fst p)) sl)
      by (eapply Permutation_Forall; eassumption).
    clear -Hs Hf'. induction Hs as [|p sl Hs IH Hp]; simpl; constructor.
    + apply IH. now inversion Hf'.
    + inversion Hf' as [|? ? Hfp Hfsl]; subst.
      rewrite Forall_forall in Hp, Hfsl. apply Forall_forall.
      intros b Hb. apply in_map_iff in Hb as (q & <- & Hq).
      exists (fst p), (fst q). repeat split; auto. now apply Hp.
Qed.
End ByKey.

End SortFacts.

(* ===================================================================== *)
(** ** Facts about the run *)
(* ===================================================================== *)

Module MergerFacts.
Import Text Py NaturalSort Merger Spec KeyFacts SortFacts.

(** *** Observations distribute over the concatenation of traces *)

Lemma submitted_app (t u : list event) :
  submitted (t ++ u) = submitted t ++ submitted u.
Proof.
  induction t as [|[] t IH]; simpl; try assumption; [reflexivity|].
  now rewrite IH.
Qed.

Lemma appended_app (t u : list event) :
  appended (t ++ u) = appended t ++ appended u.
Proof.
  induction t as [|[] t IH]; simpl; try assumption; [reflexivity|].
  destruct outcome; simpl; now rewrite IH.
Qed.

Lemma written_app (t u : list event) :
  written (t ++ u) = written t ++ written u.
Proof.
  induction t as [|[] t IH]; simpl; try assumption; [reflexivity|].
  now rewrite IH.
Qed.

Lemma created_app (t u : list event) :
  created (t ++ u) = created t ++ created u.
Proof.
  induction t as [|[] t IH]; simpl; try assumption; [reflexivity|].
  now rewrite IH.
Qed.

Lemma console_app (t u : list event) :
  console (t ++ u) = console t ++ console u.
Proof.
  induction t as [|[] t IH]; simpl; try assumption; [reflexivity|].
  now rewrite IH.
Qed.

(** *** The inner loop *)

Lemma add_pdf_spec (folder : string) (st : state) (e : entry) :
  merger (add_pdf folder st e) = merger st ++ pages_of e /\
  pdf_count (add_pdf folder st e)
    = pdf_count st + (if succeeded e then 1 else 0) /\
  trace (add_pdf folder st e) = trace st ++ attempt_events folder e.
Proof.
  unfold add_pdf, pages_of, succeeded, attempt_events.
  destruct (pdf_append (snd e)); simpl; repeat split;
    rewrite ?app_nil_r; try reflexivity; lia.
Qed.

Lemma add_pdfs_spec (folder : string) (l : list entry) (st : state) :
  merger (add_pdfs folder l st) = merger st ++ flat_map pages_of l /\
  pdf_count (add_pdfs folder l st)
    = pdf_count st + List.length (filter succeeded l) /\
  trace (add_pdfs folder l st)
    = trace st ++ flat_map (attempt_events folder) l.
Proof.
  unfold add_pdfs. revert st. induction l as [|e l IH]; intros st; simpl.
  - rewrite !app_nil_r. repeat split. lia.
  - destruct (IH (add_pdf folder st e)) as (Hm & Hc & Ht).
    destruct (add_pdf_spec folder st e) as (Hm' & Hc' & Ht').
    rewrite Hm, Hc, Ht, Hm', Hc', Ht', <- !app_assoc. repeat split.
    destruct (succeeded e); simpl; lia.
Qed.

(** *** The outer loop *)

Lemma plan_events_cons (p : string * list entry) (pl : plan) :
  plan_events (p :: pl) = folder_events p ++ plan_events pl.
Proof. reflexivity. Qed.

(** When the loop over the folders ends normally, every folder was planned
    and the state has grown by the plan. *)
Lemma process_folders_returns (fs : list (string * list entry)) (st : state) :
  raised (process_folders fs st) = None ->
  exists pl : plan,
    Forall2 plans_folder fs pl /\
    merger (final (process_folders fs st)) = merger st ++ plan_pages pl /\
    pdf_count (final (process_folders fs st)) = pdf_count st + plan_count pl /\
    trace (final (process_folders fs st)) = trace st ++ plan_events pl.
Proof.
  revert st. induction fs as [|[folder listing] fs IH]; intros st; simpl.
  - intros _. exists []. unfold plan_pages, plan_count, plan_events. simpl.
    rewrite !app_nil_r. repeat split; [constructor|lia].
  - destruct (pdf_files_of listing) as [files|e] eqn:E; simpl;
      [|discriminate].
    intros H. destruct (IH _ H) as (pl & Hpl & Hm & Hc & Ht).
    destruct (add_pdfs_spec folder files (emit st [Listdir folder]))
      as (Hm' & Hc' & Ht').
    exists ((folder, files) :: pl). split; [constructor; [split|]; auto|].
    rewrite Hm, Hc, Ht, Hm', Hc', Ht'.
    unfold plan_pages, plan_count, plan_events, folder_events. simpl.
    rewrite filter_app, length_app, <- !app_assoc. simpl.
    repeat split. lia.
Qed.

(** When an exception ends the loop, it comes from sorting the names of one
    folder, after the folders before it were processed as planned. *)
Lemma process_folders_raises (fs : list (string * list entry)) (st : state)
      (e : exn) :
  raised (process_folders fs st) = Some e ->
  exists fs1 f fs2 (pl : plan),
    fs = fs1 ++ f :: fs2 /\
    Forall2 plans_folder fs1 pl /\
    pdf_files_of (snd f) = Raise e /\
    merger (final (process_folders fs st)) = merger st ++ plan_pages pl /\
    pdf_count (final (process_folders fs st)) = pdf_count st + plan_count pl /\
    trace (final (process_folders fs st))
      = trace st ++ plan_events pl ++ [Listdir (fst f)].
Proof.
  revert st. induction fs as [|[folder listing] fs IH]; intros st; simpl;
    [discriminate|].
  destruct (pdf_files_of listing) as [files|e'] eqn:E; simpl.
  - intros H. destruct (IH _ H) as (fs1 & f & fs2 & pl & -> & Hpl & Hf & Hm & Hc & Ht).
    destruct (add_pdfs_spec folder files (emit st [Listdir folder]))
      as (Hm' & Hc' & Ht').
    exists ((folder, listing) :: fs1), f, fs2, ((folder, files) :: pl).
    split; [reflexivity|]. split; [constructor; [split|]; auto|].
    split; [exact Hf|].
    rewrite Hm, Hc, Ht, Hm', Hc', Ht'.
    unfold plan_pages, plan_count, plan_events, folder_events. simpl.
    rewrite filter_app, length_app, <- !app_assoc. simpl.
    repeat split. lia.
  - intros H. injection H as ->.
    exists [], (folder, listing), fs, []. simpl.
    unfold plan_pages, plan_count. simpl. rewrite !app_nil_r.
    repeat split; [constructor|assumption|lia].
Qed.

(** *** The whole call *)

Lemma emit_trace (st : state) (evs : list event) :
  trace (emit st evs) = trace st ++ evs.
Proof. reflexivity. Qed.

Lemma prepared_state (w : world) (output_folder : string) :
  (if output_exists w then initial
   else emit initial
          [Makedirs output_folder; Print (CreatedOutputFolder output_folder)])
  = {| merger := []; pdf_count := 0;
       trace := prepare_events w output_folder |}.
Proof. unfold prepare_events. now destruct (output_exists w). Qed.

Lemma save_result_spec (output_folder : string) (st : state) :
  merger (save_result output_folder st) = merger st /\
  pdf_count (save_result output_folder st) = pdf_count st /\
  trace (save_result output_folder st)
    = trace st ++ save_events output_folder (pdf_count st) (merger st).
Proof.
  unfold save_result, save_events.
  destruct (0 <? pdf_count st)%nat; simpl; auto.
Qed.

(** A call that returns has sorted the folders, processed the plan and
    saved the result. *)
Lemma combine_pdfs_returns (w : world) (src out : string) :
  raised (combine_pdfs w src out) = None ->
  exists fs (pl : plan),
    list_sort name_key (os_walk w src) = Ok fs /\
    Forall2 plans_folder fs pl /\
    merger (final (combine_pdfs w src out)) = plan_pages pl /\
    pdf_count (final (combine_pdfs w src out)) = plan_count pl /\
    trace (final (combine_pdfs w src out))
      = prepare_events w out ++ Walk src :: plan_events pl
        ++ save_events out (plan_count pl) (plan_pages pl).
Proof.
  unfold combine_pdfs. rewrite prepared_state. fold (@name_key (list entry)).
  destruct (list_sort name_key (os_walk w src)) as [fs|e]; [|discriminate].
  set (st1 := emit _ [Walk src]).
  destruct (raised (process_folders fs st1)) eqn:R; [rewrite R; discriminate|].
  intros _. destruct (process_folders_returns fs st1 R)
    as (pl & Hpl & Hm & Hc & Ht).
  exists fs, pl. split; [reflexivity|]. split; [exact Hpl|]. simpl.
  destruct (save_result_spec out (final (process_folders fs st1)))
    as (Hm' & Hc' & Ht').
  rewrite Hm', Hc', Ht', Hm, Hc, Ht. subst st1. simpl.
  rewrite <- !app_assoc. auto.
Qed.

(** A call that raises does so in the sort of the folders or in the sort of
    the names of one folder; nothing is saved. *)
Lemma combine_pdfs_raises (w : world) (src out : string) (e : exn) :
  raised (combine_pdfs w src out) = Some e ->
  (list_sort name_key (os_walk w src) = Raise e /\
   merger (final (combine_pdfs w src out)) = [] /\
   pdf_count (final (combine_pdfs w src out)) = 0 /\
   trace (final (combine_pdfs w src out))
     = prepare_events w out ++ [Walk src]) \/
  (exists fs1 f fs2 (pl : plan),
     list_sort name_key (os_walk w src) = Ok (fs1 ++ f :: fs2) /\
     Forall2 plans_folder fs1 pl /\
     pdf_files_of (snd f) = Raise e /\
     merger (final (combine_pdfs w src out)) = plan_pages pl /\
     pdf_count (final (combine_pdfs w src out)) = plan_count pl /\
     trace (final (combine_pdfs w src out))
       = prepare_events w out ++ Walk src :: plan_events pl
         ++ [Listdir (fst f)]).
Proof.
  unfold combine_pdfs. rewrite prepared_state. fold (@name_key (list entry)).
  destruct (list_sort name_key (os_walk w src)) as [fs|e'].
  - set (st1 := emit _ [Walk src]).
    destruct (raised (process_folders fs st1)) eqn:R; [|discriminate].
    rewrite R. intros H. injection H as ->. right.
    destruct (process_folders_raises fs st1 e R)
      as (fs1 & f & fs2 & pl & -> & Hpl & Hf & Hm & Hc & Ht).
    exists fs1, f, fs2, pl. rewrite Hm, Hc, Ht. subst st1. simpl.
    rewrite <- !app_assoc. auto 10.
  - simpl. intros H. injection H as ->. left. auto.
Qed.

Lemma name_key_alternating {A : Type} (x : string * A) (k : key) :
  name_key x = Ok k -> alternating true k.
Proof. apply natural_sort_key_alternating. Qed.

Lemma pdf_files_of_sorted (listing files : list entry) :
  pdf_files_of listing = Ok files ->
  naturally_sorted fst (filter (fun e => is_pdf_name (fst e)) listing) files.
Proof.
  intros H. apply (list_sort_sorted name_key name_key_alternating) in H.
  exact H.
Qed.

(** An exception that escapes is the [ValueError] of [natural_sort_key] on
    a folder path or on a candidate name. *)
Lemma combine_pdfs_exception (w : world) (src out : string) (e : exn) :
  raised (combine_pdfs w src out) = Some e ->
  exists s, natural_sort_key s = Raise e /\
    ((exists listing, In (s, listing) (os_walk w src)) \/
     (exists folder listing child,
         In (folder, listing) (os_walk w src) /\ In (s, child) listing /\
         is_pdf_name s = true)).
Proof.
  intros H. apply combine_pdfs_raises in H
    as [(H & _)|(fs1 & f & fs2 & pl & Hfs & _ & Hf & _)].
  - apply (list_sort_raise name_key name_key_alternating) in H
      as ([s listing] & Hin & Hs).
    exists s. split; [exact Hs|]. left. eauto.
  - apply (list_sort_raise name_key name_key_alternating) in Hf
      as ([s child] & Hin & Hs).
    exists s. split; [exact Hs|]. right.
    apply filter_In in Hin as [Hin Hpdf].
    apply (list_sort_sorted name_key name_key_alternating) in Hfs as [P _].
    destruct f as [folder listing]. exists folder, listing, child.
    repeat split; auto.
    eapply Permutation_in; [symmetry; exact P|].
    apply in_or_app. right. now left.
Qed.

(** *** What a processed plan leaves in the trace *)

Lemma submitted_attempt (folder : string) (e : entry) :
  submitted (attempt_events folder e) = [os_path_join folder (fst e)].
Proof. unfold attempt_events. now destruct (pdf_append (snd e)). Qed.

Lemma submitted_plan (pl : plan) : submitted (plan_events pl) = plan_paths pl.
Proof.
  unfold plan_events, plan_paths.
  induction pl as [|[folder files] pl IH]; [reflexivity|].
  simpl. rewrite submitted_app, IH. f_equal.
  clear. induction files as [|e files IH]; [reflexivity|].
  simpl. now rewrite submitted_app, submitted_attempt, IH.
Qed.

Lemma quiet_attempt (folder : string) (e : entry) :
  written (attempt_events folder e) = [] /\
  created (attempt_events folder e) = [].
Proof. unfold attempt_events. now destruct (pdf_append (snd e)). Qed.

Lemma quiet_plan (pl : plan) :
  written (plan_events pl) = [] /\ created (plan_events pl) = [].
Proof.
  unfold plan_events.
  induction pl as [|[folder files] pl [IHw IHc]]; [auto|].
  simpl. rewrite written_app, created_app, IHw, IHc, !app_nil_r.
  clear. induction files as [|e files [IHw IHc]]; [auto|].
  simpl. rewrite written_app, created_app, IHw, IHc.
  destruct (quiet_attempt folder e) as [-> ->]. auto.
Qed.

Lemma appended_attempts (folder : string) (files : list entry) :
  flat_map snd (appended (flat_map (attempt_events folder) files))
    = flat_map pages_of files /\
  List.length (appended (flat_map (attempt_events folder) files))
    = List.length (filter succeeded files).
Proof.
  induction files as [|e files [IHp IHc]]; [auto|].
  cbn [flat_map filter]. rewrite appended_app. split.
  - rewrite flat_map_app. f_equal; [|exact IHp].
    unfold attempt_events, pages_of.
    destruct (pdf_append (snd e)); simpl; rewrite ?app_nil_r; auto.
  - rewrite length_app. unfold attempt_events, succeeded.
    destruct (pdf_append (snd e)); simpl; f_equal; exact IHc.
Qed.

Lemma appended_plan (pl : plan) :
  flat_map snd (appended (plan_events pl)) = plan_pages pl /\
  List.length (appended (plan_events pl)) = plan_count pl.
Proof.
  unfold plan_events, plan_pages, plan_count.
  induction pl as [|[folder files] pl [IHp IHc]]; [auto|].
  cbn [flat_map folder_events fst snd]. cbn [app appended].
  rewrite appended_app.
  destruct (appended_attempts folder files) as [Hp Hc]. split.
  - rewrite flat_map_app. f_equal; [exact Hp|exact IHp].
  - rewrite length_app, filter_app, length_app. f_equal; [exact Hc|exact IHc].
Qed.

End MergerFacts.

(* ===================================================================== *)
(** ** Properties of the program *)
(* ===================================================================== *)

Import Text Py NaturalSort Merger Spec Examples.
Import TextFacts KeyFacts SortFacts MergerFacts.

(** Every trace has the same outline: the preparation of the output
    folder, the walk, the processing of a plan made of folders the walk
    found, and an ending: the saving step, the listing of the folder whose
    names could not be sorted, or nothing. *)
Lemma trace_outline (w : world) (src out : string) :
  exists fs (pl : plan) (ending : list event),
    incl fs (os_walk w src) /\
    Forall2 plans_folder fs pl /\
    trace (final (combine_pdfs w src out))
      = prepare_events w out ++ Walk src :: plan_events pl ++ ending /\
    (ending = [] \/ (exists f, ending = [Listdir f]) \/
     ending = save_events out (plan_count pl) (plan_pages pl)).
Proof.
  destruct (raised (combine_pdfs w src out)) as [e|] eqn:R.
  - apply combine_pdfs_raises in R
      as [(_ & _ & _ & Ht)|(fs1 & f & fs2 & pl & Hfs & Hpl & _ & _ & _ & Ht)].
    + exists [], [], []. rewrite Ht.
      split; [intros x []|]. split; [constructor|]. split; [reflexivity|].
      now left.
    + exists fs1, pl, [Listdir (fst f)]. rewrite Ht.
      split; [|split; [exact Hpl|split; [reflexivity|right; left; eauto]]].
      apply (list_sort_sorted name_key name_key_alternating) in Hfs as [P _].
      intros x Hx. eapply Permutation_in; [symmetry; exact P|].
      apply in_or_app. now left.
  - apply combine_pdfs_returns in R as (fs & pl & Hfs & Hpl & _ & _ & Ht).
    exists fs, pl, (save_events out (plan_count pl) (plan_pages pl)).
    rewrite Ht.
    split; [|split; [exact Hpl|split; [reflexivity|right; right; reflexivity]]].
    apply (list_sort_sorted name_key name_key_alternating) in Hfs as [P _].
    intros x Hx. eapply Permutation_in; [symmetry; exact P|exact Hx].
Qed.

Lemma created_save (out : string) (n : nat) (d : document) :
  created (save_events out n d) = [].
Proof. unfold save_events. now destruct (0 <? n)%nat. Qed.

Lemma created_prepare (w : world) (out : string) :
  created (prepare_events w out) = if output_exists w then [] else [out].
Proof. unfold prepare_events. now destruct (output_exists w). Qed.

Lemma created_by_run (w : world) (src out : string) :
  created (trace (final (combine_pdfs w src out)))
  = (if output_exists w then [] else [out]).
Proof.
  destruct (trace_outline w src out) as (fs & pl & ending & _ & _ & Ht & He).
  rewrite Ht, created_app, created_prepare. cbn [created].
  rewrite created_app. destruct (quiet_plan pl) as [_ ->].
  assert (created ending = []) as ->.
  { destruct He as [->|[(f & ->)| ->]]; auto using created_save. }
  now rewrite app_nil_r.
Qed.

(** C10. For every run, [combine_pdfs] creates the output folder, when it
    does not exist yet, before the scan of the source tree begins: the trace
    starts with the creation (and its message) when [os.path.exists] answers
    no, and the walk comes right after; this holds whatever the source is
    (missing, without PDF files, with appends that all fail) and the output
    folder is the only directory the run creates. *)
Theorem output_folder_created_before_scan (w : world) (src out : string) :
  exists rest,
    trace (final (combine_pdfs w src out))
      = (if output_exists w then []
         else [Makedirs out; Print (CreatedOutputFolder out)])
        ++ Walk src :: rest /\
    created (trace (final (combine_pdfs w src out)))
      = (if output_exists w then [] else [out]).
Proof.
  destruct (trace_outline w src out) as (fs & pl & ending & _ & _ & Ht & He).
  exists (plan_events pl ++ ending). split; [exact Ht|].
  apply created_by_run.
Qed.

Lemma in_plan_events (pl : plan) (p : string) (outcome : string + document) :
  In (Append p outcome) (plan_events pl) ->
  exists folder files e,
    In (folder, files) pl /\ In e files /\
    p = os_path_join folder (fst e) /\ outcome = pdf_append (snd e).
Proof.
  unfold plan_events. intros H. apply in_flat_map in H as ([folder files] & Hin & H).
  destruct H as [H|H]; [discriminate|]. cbn [fst snd] in H.
  apply in_flat_map in H as (e & He & H).
  exists folder, files, e. repeat split; auto;
    unfold attempt_events in H; destruct (pdf_append (snd e));
    destruct H as [H|[H|[]]]; congruence.
Qed.

Lemma planned_folder (fs : list (string * list entry)) (pl : plan)
      (folder : string) (files : list entry) :
  Forall2 plans_folder fs pl -> In (folder, files) pl ->
  exists listing, In (folder, listing) fs /\ pdf_files_of listing = Ok files.
Proof.
  induction 1 as [|[f listing] p fs pl [Hf Hp] _ IH]; intros Hin; [easy|].
  destruct Hin as [->|Hin].
  - simpl in *. subst. exists listing. auto.
  - destruct (IH Hin) as (l & ? & ?). exists l. split; [now right|assumption].
Qed.

Lemma is_pdf_name_join (folder name : string) :
  is_pdf_name name = true -> is_pdf_name (os_path_join folder name) = true.
Proof.
  unfold is_pdf_name, os_path_join. intros H.
  destruct (startswith name "/"); [exact H|].
  destruct (String.eqb folder EmptyString || endswith folder "/").
  - rewrite lower_app. now apply endswith_app.
  - rewrite !lower_app. now apply endswith_app, endswith_app.
Qed.

(** C7. For every source tree, no file whose name does not end in [.pdf]
    (case-insensitively) is ever handed to the merger: every append, failed
    or not, is made on the path of an entry that the walk found in one of
    its folders and whose name passes the test, and that path ends in
    [.pdf] too. *)
Theorem only_pdf_names_appended (w : world) (src out p : string)
        (outcome : string + document) :
  In (Append p outcome) (trace (final (combine_pdfs w src out))) ->
  exists folder listing name child,
    In (folder, listing) (os_walk w src) /\
    In (name, child) listing /\
    is_pdf_name name = true /\
    p = os_path_join folder name /\
    outcome = pdf_append child /\
    is_pdf_name p = true.
Proof.
  destruct (trace_outline w src out) as (fs & pl & ending & Hfs & Hpl & Ht & He).
  rewrite Ht. intros H.
  apply in_app_or in H as [H|H].
  { unfold prepare_events in H. destruct (output_exists w); simpl in H;
      intuition discriminate. }
  destruct H as [H|H]; [discriminate|].
  apply in_app_or in H as [H|H].
  - apply in_plan_events in H as (folder & files & [name child] & Hin & He' & -> & ->).
    destruct (planned_folder fs pl folder files Hpl Hin) as (listing & Hl & Hs).
    apply pdf_files_of_sorted in Hs as [P _].
    apply (Permutation_in _ (Permutation_sym P)) in He'.
    apply filter_In in He' as [He' Hpdf]. cbn [fst snd] in *.
    exists folder, listing, name, child. repeat split; auto.
    now apply is_pdf_name_join.
  - destruct He as [->|[(f & ->)| ->]]; simpl in H.
    + contradiction.
    + intuition discriminate.
    + unfold save_events in H.
      destruct (0 <? plan_count pl)%nat; simpl in H; intuition discriminate.
Qed.

Lemma only_pdf_names_appended_witness :
  exists folder listing name child,
    In (folder, listing) (os_walk library ".") /\
    In (name, child) listing /\
    is_pdf_name name = true /\
    "./sub/x.PDF" = os_path_join folder name /\
    @inl string document "bad" = pdf_append child /\
    is_pdf_name "./sub/x.PDF" = true.
Proof.
  apply (only_pdf_names_appended library "." "out" "./sub/x.PDF" (inl "bad")).
  vm_compute. do 13 right. left. reflexivity.
Defined.

(** *** What is written *)

Lemma written_prepare (w : world) (out : string) :
  written (prepare_events w out) = [].
Proof. unfold prepare_events. now destruct (output_exists w). Qed.

Lemma written_raises (w : world) (src out : string) (e : exn) :
  raised (combine_pdfs w src out) = Some e ->
  written (trace (final (combine_pdfs w src out))) = [].
Proof.
  intros R. apply combine_pdfs_raises in R
    as [(_ & _ & _ & Ht)|(fs1 & f & fs2 & pl & _ & _ & _ & _ & _ & Ht)];
    rewrite Ht, written_app, written_prepare; cbn [written app];
    [reflexivity|].
  rewrite written_app. destruct (quiet_plan pl) as [-> _]. reflexivity.
Qed.

Lemma written_returns (w : world) (src out : string) (pl : plan) :
  trace (final (combine_pdfs w src out))
    = prepare_events w out ++ Walk src :: plan_events pl
      ++ save_events out (plan_count pl) (plan_pages pl) ->
  written (trace (final (combine_pdfs w src out)))
    = if (0 <? plan_count pl)%nat
      then [(os_path_join out "combined_pdf.pdf", plan_pages pl)]
      else [].
Proof.
  intros ->. rewrite written_app, written_prepare. cbn [written app].
  rewrite written_app. destruct (quiet_plan pl) as [-> _].
  unfold save_events. now destruct (0 <? plan_count pl)%nat.
Qed.

Lemma plans_folder_sorted (fs : list (string * list entry)) (pl : plan) :
  Forall2 plans_folder fs pl ->
  Forall2 (fun f p =>
             fst p = fst f /\
             naturally_sorted fst
               (filter (fun e => is_pdf_name (fst e)) (snd f)) (snd p))
          fs pl.
Proof.
  induction 1 as [|f p fs pl [Hf Hp] _ IH]; constructor; [|exact IH].
  split; [exact Hf|]. now apply pdf_files_of_sorted.
Qed.

Lemma permutation_of_three {A : Type} (a b c : A) (l : list A) :
  Permutation l [a; b; c] ->
  l = [a; b; c] \/ l = [a; c; b] \/ l = [b; a; c] \/
  l = [b; c; a] \/ l = [c; a; b] \/ l = [c; b; a].
Proof.
  intros P.
  destruct (Permutation_vs_cons_inv P) as (l1 & l2 & ->).
  symmetry in P. apply Permutation_cons_app_inv in P.
  apply Permutation_length_2_inv in P.
  destruct l1 as [|x [|y [|z l1]]]; simpl in *;
    destruct P as [P|P]; try discriminate P;
    inversion P; subst; auto 10.
Qed.

(** C1. For every source tree, the document that is written holds the
    pages of the successfully appended files in this order: the folders found
    by the walk, sorted by the natural key of their path, and in each folder
    the entries with a PDF name, sorted by the natural key of their name,
    each readable file giving all its pages in their own order (a file
    whose append fails gives none).  The appends are attempted in that same
    order.  Second part: a source folder holding files named a1.pdf, a2.pdf
    and a10.pdf, listed in any order, has them merged as a1, a2, a10. *)
Theorem merged_output_order :
  (forall (w : world) (src out path : string) (doc : document),
      In (path, doc) (written (trace (final (combine_pdfs w src out)))) ->
      exists (folders : list (string * list entry)) (pl : plan),
        naturally_sorted fst (os_walk w src) folders /\
        Forall2 (fun f p =>
                   fst p = fst f /\
                   naturally_sorted fst
                     (filter (fun e => is_pdf_name (fst e)) (snd f)) (snd p))
                folders pl /\
        doc = flat_map (fun p => flat_map pages_of (snd p)) pl /\
        submitted (trace (final (combine_pdfs w src out)))
          = flat_map (fun p => map (fun e => os_path_join (fst p) (fst e))
                                   (snd p)) pl) /\
  (forall (w : world) (out : string) (listing : list entry) (c1 c2 c10 : content),
      source w = Some (Dir listing) ->
      Permutation listing [("a1.pdf", File c1); ("a2.pdf", File c2);
                           ("a10.pdf", File c10)] ->
      submitted (trace (final (combine_pdfs w "." out)))
        = ["./a1.pdf"; "./a2.pdf"; "./a10.pdf"] /\
      merger (final (combine_pdfs w "." out))
        = pages_of ("a1.pdf", File c1) ++ pages_of ("a2.pdf", File c2)
          ++ pages_of ("a10.pdf", File c10)).
Proof.
  split.
  - intros w src out path doc Hin.
    destruct (raised (combine_pdfs w src out)) as [e|] eqn:R.
    { rewrite (written_raises w src out e R) in Hin. destruct Hin. }
    destruct (combine_pdfs_returns w src out R)
      as (fs & pl & Hfs & Hpl & _ & _ & Ht).
    rewrite (written_returns w src out pl Ht) in Hin.
    exists fs, pl. split.
    { apply (list_sort_sorted name_key name_key_alternating) in Hfs.
      exact Hfs. }
    split; [now apply plans_folder_sorted|].
    split.
    + destruct (0 <? plan_count pl)%nat; [|destruct Hin].
      destruct Hin as [Hin|[]]. now injection Hin as _ <-.
    + rewrite Ht, submitted_app. cbn [submitted].
      rewrite submitted_app, submitted_plan.
      assert (submitted (prepare_events w out) = []) as ->
        by (unfold prepare_events; now destruct (output_exists w)).
      assert (submitted (save_events out (plan_count pl) (plan_pages pl)) = [])
        as -> by (unfold save_events; now destruct (0 <? plan_count pl)%nat).
      now rewrite app_nil_r.
  - intros [oe s st] out listing c1 c2 c10 Hs P. simpl in Hs. subst s.
    unfold combine_pdfs, os_walk. cbn [source output_exists].
    apply permutation_of_three in P.
    destruct P as [->|[->|[->|[->|[->| ->]]]]];
      destruct oe, c1, c2, c10;
      (split; [reflexivity|cbn; rewrite <- ?app_assoc, ?app_nil_r; reflexivity]).
Qed.

Lemma merged_output_order_witness :
  exists (folders : list (string * list entry)) (pl : plan),
    naturally_sorted fst (os_walk library ".") folders /\
    Forall2 (fun f p =>
               fst p = fst f /\
               naturally_sorted fst
                 (filter (fun e => is_pdf_name (fst e)) (snd f)) (snd p))
            folders pl /\
    [1; 2; 3; 10; 7] = flat_map (fun p => flat_map pages_of (snd p)) pl /\
    submitted (trace (final (combine_pdfs library "." "out")))
      = flat_map (fun p => map (fun e => os_path_join (fst p) (fst e))
                               (snd p)) pl.
Proof.
  apply (proj1 merged_output_order library "." "out" "out/combined_pdf.pdf").
  vm_compute. left. reflexivity.
Defined.

(** *** A source that cannot be walked *)

(** C2, the claim as stated fails: with a source folder that does not
    exist, the run returns without an exception and the process ends with
    status 0. *)
Lemma missing_source_is_not_fatal :
  source missing_source = None /\
  ~ aborts (combine_pdfs missing_source "missing" "output") /\
  snd (main missing_source (Some "missing") (Some "output")) = 0.
Proof.
  split; [reflexivity|]. split; [|reflexivity].
  intros [e He]. vm_compute in He. discriminate.
Qed.

(** C2, amended. For every run whose source folder does not exist or is
    not a directory when the tree is walked, the walk finds no folder:
    after the preparation of the output folder the run only prints that no
    PDF files were found; nothing is appended, no file is written, no
    exception is raised and the process ends with status 0. *)
Theorem missing_source_is_an_empty_result (w : world) (src out : string) :
  (source w = None \/ exists c, source w = Some (File c)) ->
  raised (combine_pdfs w src out) = None /\
  trace (final (combine_pdfs w src out))
    = (if output_exists w then []
       else [Makedirs out; Print (CreatedOutputFolder out)])
      ++ [Walk src; Print NoPdfFilesFound] /\
  submitted (trace (final (combine_pdfs w src out))) = [] /\
  written (trace (final (combine_pdfs w src out))) = [] /\
  snd (main w (Some src) (Some out)) = 0.
Proof.
  intros H.
  assert (Hwalk : os_walk w src = []).
  { unfold os_walk. destruct H as [->|(c & ->)]; reflexivity. }
  unfold main, combine_pdfs. rewrite Hwalk.
  destruct (output_exists w); repeat split; reflexivity.
Qed.

Lemma missing_source_is_an_empty_result_witness :
  raised (combine_pdfs missing_source "missing" "output") = None /\
  trace (final (combine_pdfs missing_source "missing" "output"))
    = (if output_exists missing_source then []
       else [Makedirs "output"; Print (CreatedOutputFolder "output")])
      ++ [Walk "missing"; Print NoPdfFilesFound] /\
  submitted (trace (final (combine_pdfs missing_source "missing" "output"))) = [] /\
  written (trace (final (combine_pdfs missing_source "missing" "output"))) = [] /\
  snd (main missing_source (Some "missing") (Some "output")) = 0.
Proof.
  apply (missing_source_is_an_empty_result missing_source "missing" "output").
  left. reflexivity.
Defined.

(** *** Every candidate is submitted when the run returns *)

Lemma plan_paths_candidates (fs : list (string * list entry)) (pl : plan) :
  Forall2 plans_folder fs pl ->
  Permutation (plan_paths pl) (candidate_paths fs).
Proof.
  unfold plan_paths, candidate_paths.
  induction 1 as [|[f listing] [p files] fs pl [Hf Hp] _ IH]; [constructor|].
  cbn [flat_map fst snd] in *. subst p.
  apply Permutation_app; [|exact IH].
  apply Permutation_map. symmetry.
  now apply pdf_files_of_sorted in Hp as [P _].
Qed.

Lemma submitted_prepare (w : world) (out : string) :
  submitted (prepare_events w out) = [].
Proof. unfold prepare_events. now destruct (output_exists w). Qed.

Lemma submitted_save (out : string) (n : nat) (d : document) :
  submitted (save_events out n d) = [].
Proof. unfold save_events. now destruct (0 <? n)%nat. Qed.

Lemma submitted_outline (w : world) (out src : string) (pl : plan)
      (ending : list event) :
  submitted ending = [] ->
  submitted (prepare_events w out ++ Walk src :: plan_events pl ++ ending)
    = plan_paths pl.
Proof.
  intros He. rewrite submitted_app, submitted_prepare. cbn [submitted app].
  now rewrite submitted_app, submitted_plan, He, app_nil_r.
Qed.

(** In a run that returns, the paths handed to the merger are the paths of
    the entries with a PDF name in the folders of the walk, each as many
    times as it is listed. *)
Lemma submitted_all_candidates (w : world) (src out : string) :
  raised (combine_pdfs w src out) = None ->
  Permutation (submitted (trace (final (combine_pdfs w src out))))
              (candidate_paths (os_walk w src)).
Proof.
  intros R. destruct (combine_pdfs_returns w src out R)
    as (fs & pl & Hfs & Hpl & _ & _ & Ht).
  rewrite Ht, submitted_outline by apply submitted_save.
  rewrite (plan_paths_candidates fs pl Hpl).
  apply (list_sort_sorted name_key name_key_alternating) in Hfs as [P _].
  unfold candidate_paths. symmetry. now apply Permutation_flat_map.
Qed.

(** The folders of the walk are the directories of the tree, with their
    entries. *)
Lemma walk_in_tree (n : node) :
  forall top folder e,
    in_tree top n folder e <->
    exists listing, In (folder, listing) (walk top n) /\ In e listing.
Proof.
  induction n as [c|entries IH] using node_induction; intros top folder e.
  - split; [inversion 1|intros (l & [] & _)].
  - cbn [walk]. set (below := (fix walk_entries (es : list entry) := _)).
    assert (Hbelow : forall es, Forall (fun e => forall top folder e0,
                 in_tree top (snd e) folder e0 <->
                 exists listing, In (folder, listing) (walk top (snd e))
                                 /\ In e0 listing) es ->
             forall x, In x (below es) <->
               exists name child, In (name, child) es /\
                 In x (walk (os_path_join top name) child)).
    { clear. induction es as [|[name child] es IHes]; intros Hall x.
      - simpl. split; [intros []|intros (? & ? & [] & _)].
      - cbn [below]. rewrite in_app_iff, IHes by now inversion Hall.
        split.
        + intros [H|(n' & c' & Hin & H)].
          * exists name, child. split; [now left|exact H].
          * exists n', c'. split; [now right|exact H].
        + intros (n' & c' & [Heq|Hin] & H).
          * injection Heq as <- <-. now left.
          * right. eauto. }
    split.
    + intros H. inversion H as [? ? ? Hin|? ? name child ? ? Hin Hsub]; subst.
      * exists entries. split; [now left|exact Hin].
      * rewrite Forall_forall in IH.
        apply (IH (name, child) Hin) in Hsub as (listing & Hl & He).
        exists listing. split; [|exact He]. right.
        apply (Hbelow entries); [now apply Forall_forall|]. eauto.
    + intros (listing & [Heq|Hin] & He).
      * injection Heq as <- <-. now constructor.
      * apply (Hbelow entries IH) in Hin as (name & child & Hin & Hw).
        eapply in_below; [exact Hin|].
        rewrite Forall_forall in IH. apply (IH (name, child) Hin). eauto.
Qed.

(** *** The empty result *)

Lemma console_plan_without_candidates (pl : plan) :
  plan_paths pl = [] -> console (plan_events pl) = [].
Proof.
  unfold plan_paths, plan_events.
  induction pl as [|[folder files] pl IH]; [reflexivity|].
  cbn [flat_map fst snd]. intros H. apply app_eq_nil in H as [Hf Hpl].
  apply map_eq_nil in Hf. subst files. simpl. now apply IH.
Qed.

Lemma empty_plan_count (pl : plan) : plan_paths pl = [] -> plan_count pl = 0.
Proof.
  unfold plan_paths, plan_count.
  induction pl as [|[folder files] pl IH]; [reflexivity|].
  cbn [flat_map fst snd]. intros H. apply app_eq_nil in H as [Hf Hpl].
  apply map_eq_nil in Hf. subst files. simpl. now apply IH.
Qed.

Lemma console_prepare (w : world) (out : string) :
  console (prepare_events w out)
  = if output_exists w then [] else [CreatedOutputFolder out].
Proof. unfold prepare_events. now destruct (output_exists w). Qed.

(** C6, the claim as stated fails: in a source folder without any file,
    with an output folder that does not exist yet, the notice is not all
    that happens: the output folder is created and its creation is printed
    first. *)
Lemma empty_tree_creates_output_folder :
  candidate_paths (os_walk empty_source ".") = [] /\
  ~ only_notice (trace (final (combine_pdfs empty_source "." "output"))) /\
  created (trace (final (combine_pdfs empty_source "." "output")))
    = ["output"] /\
  console (trace (final (combine_pdfs empty_source "." "output")))
    = [CreatedOutputFolder "output"; NoPdfFilesFound].
Proof.
  split; [reflexivity|]. split; [|split; reflexivity].
  intros (Hc & _). vm_compute in Hc. discriminate.
Qed.

(** C6, amended. For every run that returns with zero files successfully
    merged, no output file is written, the last line printed is the notice
    that no PDF files were found, and the process ends with status 0.  If
    moreover the source tree holds no entry with a PDF name, no append is
    attempted and, apart from the creation of the output folder when it was
    missing (with the line that reports it), the notice is the only
    outcome. *)
Theorem empty_result_notice (w : world) (src out : string) :
  raised (combine_pdfs w src out) = None ->
  appended (trace (final (combine_pdfs w src out))) = [] ->
  written (trace (final (combine_pdfs w src out))) = [] /\
  (exists lines,
      console (trace (final (combine_pdfs w src out)))
        = lines ++ [NoPdfFilesFound]) /\
  snd (main w (Some src) (Some out)) = 0 /\
  (candidate_paths (os_walk w src) = [] ->
   submitted (trace (final (combine_pdfs w src out))) = [] /\
   console (trace (final (combine_pdfs w src out)))
     = (if output_exists w then [] else [CreatedOutputFolder out])
       ++ [NoPdfFilesFound] /\
   created (trace (final (combine_pdfs w src out)))
     = (if output_exists w then [] else [out])).
Proof.
  intros R Happ.
  destruct (combine_pdfs_returns w src out R)
    as (fs & pl & Hfs & Hpl & _ & _ & Ht).
  assert (Hcount : plan_count pl = 0).
  { destruct (appended_plan pl) as [_ <-].
    rewrite Ht, appended_app in Happ. apply app_eq_nil in Happ as [_ Happ].
    cbn [appended] in Happ. rewrite appended_app in Happ.
    apply app_eq_nil in Happ as [-> _]. reflexivity. }
  assert (Hconsole :
            console (trace (final (combine_pdfs w src out)))
            = (console (prepare_events w out) ++ console (plan_events pl))
              ++ [NoPdfFilesFound]).
  { rewrite Ht, Hcount, console_app. cbn [console]. rewrite console_app.
    unfold save_events. simpl. now rewrite app_assoc. }
  split.
  { rewrite (written_returns w src out pl Ht), Hcount. reflexivity. }
  split; [eauto|].
  split; [unfold main; cbn [snd]; now rewrite R|].
  intros Hnone.
  pose proof (submitted_all_candidates w src out R) as P.
  rewrite Hnone in P. symmetry in P. apply Permutation_nil in P.
  split; [exact P|].
  split.
  - rewrite Hconsole, console_prepare.
    rewrite Ht, submitted_outline in P by apply submitted_save.
    now rewrite (console_plan_without_candidates pl P), app_nil_r.
  - apply created_by_run.
Qed.

Lemma empty_result_notice_witness :
  written (trace (final (combine_pdfs empty_source "." "output"))) = [] /\
  (exists lines,
      console (trace (final (combine_pdfs empty_source "." "output")))
        = lines ++ [NoPdfFilesFound]) /\
  snd (main empty_source (Some ".") (Some "output")) = 0 /\
  (candidate_paths (os_walk empty_source ".") = [] ->
   submitted (trace (final (combine_pdfs empty_source "." "output"))) = [] /\
   console (trace (final (combine_pdfs empty_source "." "output")))
     = (if output_exists empty_source then []
        else [CreatedOutputFolder "output"])
       ++ [NoPdfFilesFound] /\
   created (trace (final (combine_pdfs empty_source "." "output")))
     = (if output_exists empty_source then [] else ["output"])).
Proof.
  apply (empty_result_notice empty_source "." "output"); reflexivity.
Defined.

(** *** natural_sort_key on names without superscript digits *)

Lemma all_chars_app (p : ascii -> bool) (a b : string) :
  all_chars p (a ++ b) = all_chars p a && all_chars p b.
Proof.
  induction a as [|c a IH]; simpl; [reflexivity|].
  now rewrite IH, andb_assoc.
Qed.

Lemma all_chars_joined (p : ascii -> bool) (pieces : list string) :
  all_chars p (joined pieces) = true ->
  Forall (fun piece => all_chars p piece = true) pieces.
Proof.
  induction pieces as [|x pieces IH]; simpl; intros H; constructor.
  - rewrite all_chars_app in H. now apply andb_true_iff in H.
  - rewrite all_chars_app in H. apply andb_true_iff in H. now apply IH.
Qed.

Lemma plain_text_is_not_digits (t : string) :
  all_chars not_digit t = true ->
  all_chars (fun c => negb (superscript c)) t = true ->
  isdigit t = false.
Proof.
  destruct t as [|c t]; [reflexivity|]. simpl.
  intros H1 H2. apply andb_true_iff in H1 as [H1 _], H2 as [H2 _].
  unfold not_digit in H1. unfold superscript in H2.
  destruct (isdigit_char c); [|reflexivity].
  destruct (re_digit c); discriminate.
Qed.

Lemma digit_split_parts (l : list string) :
  digit_split l ->
  Forall (fun p => all_chars not_digit p = true \/
                   (p <> EmptyString /\ all_chars re_digit p = true)) l.
Proof.
  induction 1 as [t Ht|t d rest Ht Hne Hd _ _ IH].
  - constructor; [now left|constructor].
  - constructor; [now left|]. constructor; [right; now split|exact IH].
Qed.

(** The key is the list of the tokens of the pieces of the split. *)
Lemma natural_sort_key_tokens (s : string) (k : key) :
  natural_sort_key s = Ok k ->
  digit_split (re_split s) /\ joined (re_split s) = s /\
  Forall2 piece_token (re_split s) k.
Proof.
  intros H. split; [apply re_split_digit_split|].
  split; [apply re_split_joined|].
  unfold natural_sort_key in H. apply comprehension_ok in H.
  pose proof (re_split_digit_split s) as D. revert k H.
  induction D as [t Ht|t d rest Ht Hne Hd _ Hrest IH]; intros k H.
  - inversion H as [|? y ? ? Hy Hnil]; subst. inversion Hnil; subst.
    constructor; [|constructor]. right. split; [exact Ht|].
    destruct (key_token_text t Ht) as [[_ E]|[_ E]]; congruence.
  - inversion H as [|? y1 ? k1 Hy1 Hk1]; subst.
    inversion Hk1 as [|? y2 ? k2 Hy2 Hk2]; subst.
    constructor; [|constructor; [|now apply IH]].
    + right. split; [exact Ht|].
      destruct (key_token_text t Ht) as [[_ E]|[_ E]]; congruence.
    + left. destruct (key_token_digits_ok d y2 Hne Hd Hy2) as (n & -> & Hn & _).
      repeat split; auto. exists n. auto.
Qed.

Lemma length_append (a b : string) :
  String.length (a ++ b) = String.length a + String.length b.
Proof. induction a as [|c a IH]; simpl; [reflexivity|now rewrite IH]. Qed.

Lemma length_joined (pieces : list string) (p : string) :
  In p pieces -> String.length p <= String.length (joined pieces).
Proof.
  induction pieces as [|x pieces IH]; [intros []|].
  cbn [joined fold_right]. rewrite length_append.
  intros [->|H]; [lia|]. specialize (IH H). unfold joined in IH. lia.
Qed.

Lemma within_limit_piece (s p : string) :
  within_limit s = true -> In p (re_split s) -> within_limit p = true.
Proof.
  unfold within_limit. intros H Hin. apply length_joined in Hin.
  rewrite re_split_joined in Hin. apply N.leb_le in H. apply N.leb_le. lia.
Qed.

(** A name without superscript digits, and short enough for the digit limit
    of [int], always has a key. *)
Lemma natural_sort_key_defined (s : string) :
  all_chars (fun c => negb (superscript c)) s = true ->
  within_limit s = true ->
  exists k, natural_sort_key s = Ok k.
Proof.
  intros H Hlen. rewrite <- (re_split_joined s) in H.
  apply all_chars_joined in H. rewrite Forall_forall in H.
  unfold natural_sort_key. apply comprehension_all_ok. intros p Hin.
  pose proof (digit_split_parts _ (re_split_digit_split s)) as F.
  rewrite Forall_forall in F. destruct (F p Hin) as [Ht|[Hne Hd]].
  - destruct (key_token_text p Ht) as [[_ E]|[E _]]; [eauto|].
    rewrite plain_text_is_not_digits in E by auto. discriminate.
  - destruct (key_token_digits p Hne Hd (within_limit_piece s p Hlen Hin))
      as (n & E & _).
    eauto.
Qed.

(** C3, evaluated where it fails.  In the name "2" U+00B2 the split
    isolates the superscript after the digit run; [isdigit] accepts it, so
    [int] is called on it and raises: the name has no key.  The failures
    reported for C4, C8 and C9 come from this defect. *)
Theorem natural_sort_key_superscript_digit :
  re_split two_squared = [EmptyString; "2"; superscript_two] /\
  isdigit superscript_two = true /\
  all_chars re_digit superscript_two = false /\
  natural_sort_key two_squared = Raise (ValueError superscript_two).
Proof. repeat split; reflexivity. Qed.

(** The examples of the claim hold: 2 sorts before 10, and case is
    folded. *)
Lemma natural_sort_key_examples :
  natural_sort_key "file2.pdf" = Ok [TStr "file"; TInt 2; TStr ".pdf"] /\
  natural_sort_key "file10.pdf" = Ok [TStr "file"; TInt 10; TStr ".pdf"] /\
  key_lt [TStr "file"; TInt 2; TStr ".pdf"] [TStr "file"; TInt 10; TStr ".pdf"]
    = Ok true /\
  natural_sort_key "A" = natural_sort_key "a".
Proof. repeat split; reflexivity. Qed.

(** *** The sort never compares an [int] with a [str] *)

Lemma natural_keys_comparable (s1 s2 : string) (k1 k2 : key) :
  natural_sort_key s1 = Ok k1 -> natural_sort_key s2 = Ok k2 ->
  typed_by_parity k1 /\ typed_by_parity k2 /\ exists r, key_lt k1 k2 = Ok r.
Proof.
  intros H1 H2. apply natural_sort_key_alternating in H1, H2.
  split; [now apply alternating_typed|].
  split; [now apply alternating_typed|].
  eapply key_lt_defined; eassumption.
Qed.

Lemma sort_never_type_error (names : list string) :
  list_sort natural_sort_key names <> Raise TypeError.
Proof.
  intros H.
  apply (list_sort_raise natural_sort_key natural_sort_key_alternating) in H
    as (x & _ & Hx).
  now apply natural_sort_key_not_type_error in Hx.
Qed.

(** C9, evaluated where it fails.  Sorting a list that holds the name "2"
    U+00B2 does not return, although the other name has a key: the key of
    that name raises [ValueError].  This is the defect of C3; the sort
    itself never fails on a comparison. *)
Theorem sort_of_superscript_name_raises :
  natural_sort_key "a1.pdf" = Ok [TStr "a"; TInt 1; TStr ".pdf"] /\
  natural_sort_key two_squared = Raise (ValueError superscript_two) /\
  list_sort natural_sort_key ["a1.pdf"; two_squared]
  = Raise (ValueError superscript_two).
Proof.
  split; [reflexivity|]. split.
  - unfold natural_sort_key. reflexivity.
  - unfold list_sort. reflexivity.
Qed.

(** C4, evaluated where it fails.  The file a.pdf lies in the source
    folder, next to an empty folder named "2" U+00B2; sorting the folders
    raises and a.pdf is never handed to the merger.  This is the defect of
    C3, met in the sort of the folder paths. *)
Theorem candidate_lost_to_folder_name :
  (exists tree, source squared_folder = Some tree /\
                in_tree "." tree "." ("a.pdf", File (Pdf [1]))) /\
  is_pdf_name "a.pdf" = true /\
  raised (combine_pdfs squared_folder "." "output")
    = Some (ValueError superscript_two) /\
  submitted (trace (final (combine_pdfs squared_folder "." "output"))) = [].
Proof.
  split; [|repeat split; reflexivity].
  eexists. split; [reflexivity|]. constructor. now left.
Qed.

(** *** The saved file *)

(** In a run that returns after at least one successful append, exactly one
    file is written: the accumulated document, at
    [os.path.join(output_folder, 'combined_pdf.pdf')]. *)
Lemma result_written (w : world) (src out : string) :
  raised (combine_pdfs w src out) = None ->
  appended (trace (final (combine_pdfs w src out))) <> [] ->
  written (trace (final (combine_pdfs w src out)))
    = [(os_path_join out "combined_pdf.pdf",
        merger (final (combine_pdfs w src out)))] /\
  merger (final (combine_pdfs w src out))
    = flat_map snd (appended (trace (final (combine_pdfs w src out)))).
Proof.
  intros R Happ.
  destruct (combine_pdfs_returns w src out R)
    as (fs & pl & Hfs & Hpl & Hm & _ & Ht).
  assert (Happ' : appended (trace (final (combine_pdfs w src out)))
                  = appended (plan_events pl)).
  { rewrite Ht, appended_app. cbn [appended]. rewrite appended_app.
    assert (appended (prepare_events w out) = []) as ->
      by (unfold prepare_events; now destruct (output_exists w)).
    assert (appended (save_events out (plan_count pl) (plan_pages pl)) = [])
      as -> by (unfold save_events; now destruct (0 <? plan_count pl)%nat).
    now rewrite app_nil_r. }
  assert (Hpos : (0 <? plan_count pl)%nat = true).
  { destruct (appended_plan pl) as [_ <-]. rewrite <- Happ'.
    destruct (appended _); [congruence|reflexivity]. }
  split.
  - rewrite (written_returns w src out pl Ht), Hpos, Hm. reflexivity.
  - rewrite Happ', Hm. symmetry. apply appended_plan.
Qed.

Lemma os_path_join_plain (a b : string) :
  startswith b "/" = false -> a <> EmptyString -> endswith a "/" = false ->
  os_path_join a b = (a ++ "/" ++ b)%string.
Proof.
  unfold os_path_join. intros -> Ha ->.
  destruct (String.eqb_spec a EmptyString); [contradiction|reflexivity].
Qed.

(** When no folder path and no candidate name of the tree holds a
    superscript digit, and each is short enough for the digit limit of
    [int], every sort of the run succeeds. *)
Lemma plain_names_return (w : world) (src out : string) :
  (forall folder listing,
      In (folder, listing) (os_walk w src) ->
      (all_chars (fun c => negb (superscript c)) folder = true /\
       within_limit folder = true) /\
      forall name child,
        In (name, child) listing -> is_pdf_name name = true ->
        all_chars (fun c => negb (superscript c)) name = true /\
        within_limit name = true) ->
  raised (combine_pdfs w src out) = None.
Proof.
  intros H. destruct (raised (combine_pdfs w src out)) as [e|] eqn:R;
    [|reflexivity].
  apply combine_pdfs_exception in R
    as (s & Hs & [(listing & Hin)|(folder & listing & child & Hin & Hc & Hp)]).
  - destruct (H s listing Hin) as [[Hplain Hlen] _].
    destruct (natural_sort_key_defined s Hplain Hlen) as (k & Hk). congruence.
  - destruct (H folder listing Hin) as [_ Hnames].
    destruct (Hnames s child Hc Hp) as [Hplain Hlen].
    destruct (natural_sort_key_defined s Hplain Hlen) as (k & Hk).
    congruence.
Qed.

(** C8, evaluated where it fails.  The file a.pdf is merged from the
    source folder; the sub-folder x then holds a PDF named "1" U+00B2
    "3.pdf", sorting its names raises and the run ends without writing
    anything.  This is the defect of C3, met in the sort of the file names
    of a folder processed later. *)
Theorem merged_file_not_written :
  appended (trace (final (combine_pdfs squared_file "." "output")))
    = [("./a.pdf", [1])] /\
  pdf_count (final (combine_pdfs squared_file "." "output")) = 1 /\
  raised (combine_pdfs squared_file "." "output")
    = Some (ValueError superscript_two) /\
  written (trace (final (combine_pdfs squared_file "." "output"))) = [] /\
  disk_after (stored squared_file)
             (trace (final (combine_pdfs squared_file "." "output")))
             "output/combined_pdf.pdf" = None.
Proof. repeat split; reflexivity. Qed.

(* ===================================================================== *)
(** ** Removing or replacing an item before a sort *)
(* ===================================================================== *)

Section SortSurgery.
Context {A : Type}.
Implicit Types (x y : key * A) (l r : list (key * A)).

Lemma insert_place x l r :
  insert x l = Ok r -> exists r1 r2, r = r1 ++ x :: r2 /\ l = r1 ++ r2.
Proof.
  revert r. induction l as [|y l IH]; simpl; intros r H.
  - injection H as <-. now exists [], [].
  - apply bind_ok in H as ([|] & _ & H).
    + apply bind_ok in H as (r' & Hr' & H). injection H as <-.
      destruct (IH _ Hr') as (r1 & r2 & -> & ->). now exists (y :: r1), r2.
    + injection H as <-. now exists [], (y :: l).
Qed.

(** Inserting into a sorted list gives the same arrangement of the other
    pairs whether or not the pair [y] is in the list. *)
Lemma insert_without x y l1 l2 r :
  alternating true (fst x) ->
  typed_pairs (l1 ++ y :: l2) ->
  StronglySorted pair_le (l1 ++ y :: l2) ->
  insert x (l1 ++ y :: l2) = Ok r ->
  exists r1 r2, r = r1 ++ y :: r2 /\ insert x (l1 ++ l2) = Ok (r1 ++ r2).
Proof.
  intros Hx. revert r. induction l1 as [|z l1 IH]; intros r Ht Hs H.
  - cbn [app insert] in *. apply bind_ok in H as (b & Hb & H). destruct b.
    + apply bind_ok in H as (r' & Hr' & H). injection H as <-.
      now exists [], r'.
    + injection H as <-. exists [x], l2. split; [reflexivity|].
      destruct l2 as [|z l2]; [reflexivity|]. cbn [app insert].
      assert (key_lt (fst z) (fst x) = Ok false) as ->; [|reflexivity].
      inversion Ht as [|? ? Hy Ht']; subst.
      inversion Ht' as [|? ? Hz _]; subst.
      inversion Hs as [|? ? _ Hle]; subst.
      inversion Hle as [|? ? Hyz _]; subst.
      apply (key_le_trans (fst x) (fst y) (fst z) true); auto.
  - cbn [app insert] in *. apply bind_ok in H as (b & Hb & H).
    rewrite Hb. cbn [bind]. destruct b.
    + apply bind_ok in H as (r' & Hr' & H). injection H as <-.
      inversion Ht; subst. inversion Hs; subst.
      destruct (IH r') as (r1 & r2 & -> & E); auto.
      exists (z :: r1), r2. split; [reflexivity|].
      rewrite E. reflexivity.
    + injection H as <-. now exists (x :: z :: l1), l2.
Qed.

(** The sort arranges the other pairs in the same way whether or not the
    pair [y] is in the list. *)
Lemma sort_pairs_without y l1 l2 r :
  typed_pairs (l1 ++ y :: l2) ->
  sort_pairs (l1 ++ y :: l2) = Ok r ->
  exists r1 r2, r = r1 ++ y :: r2 /\ sort_pairs (l1 ++ l2) = Ok (r1 ++ r2).
Proof.
  revert r. induction l1 as [|x l1 IH]; intros r Ht H.
  - cbn [app sort_pairs] in *. apply bind_ok in H as (r' & Hr' & H).
    apply insert_place in H as (r1 & r2 & -> & ->). eauto.
  - cbn [app sort_pairs] in *. apply bind_ok in H as (r' & Hr' & H).
    inversion Ht as [|? ? Hx Ht']; subst.
    destruct (IH r' Ht' Hr') as (r1 & r2 & -> & E).
    rewrite E. cbn [bind].
    apply (insert_without x y r1 r2 r Hx); [|now apply (sort_pairs_sorted _ _ Ht' Hr')|exact H].
    eapply Permutation_Forall; [apply sort_pairs_perm; exact Hr'|exact Ht'].
Qed.

Variable R : A -> A -> Prop.

Lemma insert_related x x' l l' r :
  related_pairs R x x' -> Forall2 (related_pairs R) l l' ->
  insert x l = Ok r ->
  exists r', insert x' l' = Ok r' /\ Forall2 (related_pairs R) r r'.
Proof.
  intros Hx Hl. revert r.
  induction Hl as [|y y' l l' Hy Hl IH]; simpl; intros r H.
  - injection H as <-. exists [x']. split; [reflexivity|]. now constructor.
  - destruct Hx as [Hkx Hrx]; destruct Hy as [Hky Hry].
    rewrite <- Hkx, <- Hky.
    apply bind_ok in H as (b & -> & H). cbn [bind]. destruct b.
    + apply bind_ok in H as (r1 & Hr1 & H). injection H as <-.
      destruct (IH _ Hr1) as (r1' & -> & Hr1'). cbn [bind].
      exists (y' :: r1'). split; [reflexivity|].
      constructor; [split|]; assumption.
    + injection H as <-. exists (x' :: y' :: l'). split; [reflexivity|].
      repeat constructor; assumption.
Qed.

Lemma sort_pairs_related l l' r :
  Forall2 (related_pairs R) l l' -> sort_pairs l = Ok r ->
  exists r', sort_pairs l' = Ok r' /\ Forall2 (related_pairs R) r r'.
Proof.
  intros Hl. revert r. induction Hl as [|x x' l l' Hx Hl IH]; simpl; intros r H.
  - injection H as <-. exists []. split; [reflexivity|constructor].
  - apply bind_ok in H as (r1 & Hr1 & H).
    destruct (IH _ Hr1) as (r1' & -> & Hr1'). cbn [bind].
    eapply insert_related; eassumption.
Qed.
End SortSurgery.

Section SortSurgeryByKey.
Context {A : Type} (f : A -> result key).
Hypothesis f_alternating : forall x k, f x = Ok k -> alternating true k.

Lemma comprehension_app {B : Type} (g : A -> result B) (l1 l2 : list A) :
  comprehension g (l1 ++ l2)
  = (r1 <- comprehension g l1 ;; r2 <- comprehension g l2 ;; Ok (r1 ++ r2)).
Proof.
  induction l1 as [|x l1 IH]; simpl.
  - now destruct (comprehension g l2).
  - destruct (g x); simpl; [|reflexivity]. rewrite IH.
    destruct (comprehension g l1); simpl; [|reflexivity].
    now destruct (comprehension g l2).
Qed.

(** An item that has a key can be taken out of the list: the sort of the
    rest raises the same exception, or returns the same arrangement without
    the item. *)
Lemma list_sort_without (x : A) (k : key) (l1 l2 : list A) :
  f x = Ok k ->
  match list_sort f (l1 ++ x :: l2) with
  | Raise e => list_sort f (l1 ++ l2) = Raise e
  | Ok r => exists r1 r2, r = r1 ++ x :: r2 /\
                          list_sort f (l1 ++ l2) = Ok (r1 ++ r2)
  end.
Proof.
  intros Hx. unfold list_sort. fold (keyed f).
  rewrite !comprehension_app. cbn [comprehension]. unfold keyed at 2.
  rewrite Hx. cbn [bind].
  destruct (comprehension (keyed f) l1) as [k1|e] eqn:E1; cbn [bind];
    [|reflexivity].
  destruct (comprehension (keyed f) l2) as [k2|e] eqn:E2; cbn [bind];
    [|reflexivity].
  destruct (keyed_list f l1 k1 E1) as [M1 F1].
  destruct (keyed_list f l2 k2 E2) as [M2 F2].
  assert (Ht : typed_pairs (k1 ++ (k, x) :: k2)).
  { apply (keyed_typed f f_alternating). apply Forall_app. split; [exact F1|].
    constructor; [exact Hx|exact F2]. }
  destruct (sort_pairs_ok _ Ht) as (r & Hr). rewrite Hr. cbn [bind].
  destruct (sort_pairs_without (k, x) k1 k2 r Ht Hr) as (r1 & r2 & -> & ->).
  cbn [bind]. exists (map snd r1), (map snd r2).
  now rewrite !map_app.
Qed.

Variable R : A -> A -> Prop.
Hypothesis R_key : forall a b, R a b -> f a = f b.

Lemma keyed_related (l l' : list A) :
  Forall2 R l l' ->
  match comprehension (keyed f) l with
  | Raise e => comprehension (keyed f) l' = Raise e
  | Ok kl => exists kl', comprehension (keyed f) l' = Ok kl' /\
                         Forall2 (related_pairs R) kl kl'
  end.
Proof.
  induction 1 as [|a b l l' Hab Hl IH]; cbn [comprehension].
  - exists []. split; [reflexivity|constructor].
  - change (keyed f a) with (k <- f a ;; Ok (k, a)).
    change (keyed f b) with (k <- f b ;; Ok (k, b)).
    rewrite <- (R_key a b Hab).
    destruct (f a) as [k|e]; cbn [bind]; [|reflexivity].
    destruct (comprehension (keyed f) l) as [kl|e]; cbn [bind].
    + destruct IH as (kl' & -> & Hkl). cbn [bind].
      exists ((k, b) :: kl'). split; [reflexivity|].
      constructor; [split; [reflexivity|exact Hab]|exact Hkl].
    + rewrite IH. reflexivity.
Qed.

(** Items can be replaced by related items of the same key: the sort
    raises the same exception, or returns the related arrangement. *)
Lemma list_sort_related (l l' : list A) :
  Forall2 R l l' ->
  match list_sort f l with
  | Raise e => list_sort f l' = Raise e
  | Ok r => exists r', list_sort f l' = Ok r' /\ Forall2 R r r'
  end.
Proof.
  intros Hl. unfold list_sort. fold (keyed f).
  pose proof (keyed_related l l' Hl) as Hk.
  destruct (comprehension (keyed f) l) as [kl|e] eqn:E; cbn [bind].
  - destruct Hk as (kl' & -> & Hkl). cbn [bind].
    destruct (keyed_list f l kl E) as [_ F].
    destruct (sort_pairs_ok kl (keyed_typed f f_alternating kl F)) as (r & Hr).
    rewrite Hr. cbn [bind].
    destruct (sort_pairs_related R kl kl' r Hkl Hr) as (r' & -> & Hr').
    cbn [bind]. exists (map snd r'). split; [reflexivity|].
    clear -Hr'. induction Hr' as [|p q r r' [_ Hpq] _ IH]; simpl;
      constructor; assumption.
  - rewrite Hk. reflexivity.
Qed.
End SortSurgeryByKey.

(* ===================================================================== *)
(** ** A failed append leaves the rest of the run as it is *)
(* ===================================================================== *)

Lemma appended_failed_attempt (folder reason : string) (x : entry) :
  pdf_append (snd x) = inl reason ->
  attempt_events folder x
  = [Append (os_path_join folder (fst x)) (inl reason);
     (Print (ErrorAdding (os_path_join folder (fst x)) reason))].
Proof. unfold attempt_events. now intros ->. Qed.

Lemma written_attempts (folder : string) (l : list entry) :
  written (flat_map (attempt_events folder) l) = [].
Proof.
  induction l as [|e l IH]; [reflexivity|]. cbn [flat_map].
  rewrite written_app, IH. now destruct (quiet_attempt folder e) as [-> _].
Qed.

Lemma same_outcome_refl (st : state) : same_outcome st st.
Proof. repeat split. Qed.

Lemma same_outcome_emit (st st' : state) (evs evs' : list event) :
  same_outcome st st' ->
  appended evs = [] -> written evs = [] ->
  appended evs' = [] -> written evs' = [] ->
  same_outcome (emit st evs) (emit st' evs').
Proof.
  intros (Hm & Hc & Ha & Hw) A W A' W'. unfold same_outcome, emit. simpl.
  rewrite !appended_app, !written_app, A, W, A', W', Ha, Hw. auto.
Qed.

Lemma same_outcome_add_pdfs (folder : string) (l : list entry)
      (st st' : state) :
  same_outcome st st' ->
  same_outcome (add_pdfs folder l st) (add_pdfs folder l st').
Proof.
  intros (Hm & Hc & Ha & Hw).
  destruct (add_pdfs_spec folder l st) as (M & C & T).
  destruct (add_pdfs_spec folder l st') as (M' & C' & T').
  unfold same_outcome.
  rewrite M, C, T, M', C', T', !appended_app, !written_app, Hm, Hc, Ha, Hw.
  auto.
Qed.

(** The inner loop gives the same result with and without a candidate
    whose append fails. *)
Lemma add_pdfs_without (folder reason : string) (x : entry)
      (d1 d2 : list entry) (st st' : state) :
  pdf_append (snd x) = inl reason ->
  same_outcome st st' ->
  same_outcome (add_pdfs folder (d1 ++ x :: d2) st)
               (add_pdfs folder (d1 ++ d2) st').
Proof.
  intros Hx (Hm & Hc & Ha & Hw).
  destruct (add_pdfs_spec folder (d1 ++ x :: d2) st) as (M & C & T).
  destruct (add_pdfs_spec folder (d1 ++ d2) st') as (M' & C' & T').
  unfold same_outcome. rewrite M, C, T, M', C', T'.
  rewrite !appended_app, !written_app, !written_attempts, Hm, Hc, Ha, Hw.
  rewrite !flat_map_app, !filter_app, !length_app, !appended_app.
  cbn [flat_map filter]. rewrite appended_app.
  rewrite (appended_failed_attempt folder reason x Hx).
  unfold pages_of, succeeded. rewrite Hx. cbn [appended app].
  auto.
Qed.

Lemma pdf_files_without (x : entry) (k : key) (l1 l2 : list entry) :
  is_pdf_name (fst x) = true ->
  natural_sort_key (fst x) = Ok k ->
  match pdf_files_of (l1 ++ x :: l2) with
  | Raise e => pdf_files_of (l1 ++ l2) = Raise e
  | Ok r => exists d1 d2, r = d1 ++ x :: d2 /\
                          pdf_files_of (l1 ++ l2) = Ok (d1 ++ d2)
  end.
Proof.
  intros Hpdf Hk. unfold pdf_files_of. rewrite !filter_app. cbn [filter].
  rewrite Hpdf.
  apply (list_sort_without name_key name_key_alternating x k). exact Hk.
Qed.

Lemma same_outcome_trans (st1 st2 st3 : state) :
  same_outcome st1 st2 -> same_outcome st2 st3 -> same_outcome st1 st3.
Proof.
  intros (M & C & A & W) (M' & C' & A' & W'). unfold same_outcome.
  rewrite M, C, A, W. auto.
Qed.

Lemma same_file_refl (l : list entry) : Forall2 same_file l l.
Proof. induction l; constructor; [split; reflexivity|assumption]. Qed.

Lemma same_file_attempt (folder : string) (e e' : entry) :
  same_file e e' ->
  attempt_events folder e = attempt_events folder e' /\
  pages_of e = pages_of e' /\
  succeeded e = succeeded e'.
Proof.
  intros [Hn Ha]. unfold attempt_events, pages_of, succeeded.
  now rewrite Hn, Ha.
Qed.

Lemma same_file_events (folder : string) (l l' : list entry) :
  Forall2 same_file l l' ->
  flat_map (attempt_events folder) l = flat_map (attempt_events folder) l' /\
  flat_map pages_of l = flat_map pages_of l' /\
  List.length (filter succeeded l) = List.length (filter succeeded l').
Proof.
  induction 1 as [|e e' l l' He _ (IH1 & IH2 & IH3)]; [auto|].
  destruct (same_file_attempt folder e e' He) as (E1 & E2 & E3).
  cbn [flat_map filter]. rewrite E1, E2, E3, IH1, IH2.
  destruct (succeeded e'); simpl; auto.
Qed.

Lemma add_pdfs_alike (folder : string) (l l' : list entry) (st st' : state) :
  Forall2 same_file l l' -> same_outcome st st' ->
  same_outcome (add_pdfs folder l st) (add_pdfs folder l' st').
Proof.
  intros Hl (Hm & Hc & Ha & Hw).
  destruct (same_file_events folder l l' Hl) as (E1 & E2 & E3).
  destruct (add_pdfs_spec folder l st) as (M & C & T).
  destruct (add_pdfs_spec folder l' st') as (M' & C' & T').
  unfold same_outcome.
  rewrite M, C, T, M', C', T', !appended_app, !written_app, Hm, Hc, Ha, Hw,
    E1, E2, E3.
  auto.
Qed.

Lemma filter_alike (l l' : list entry) :
  Forall2 same_file l l' ->
  Forall2 same_file (filter (fun e => is_pdf_name (fst e)) l)
                    (filter (fun e => is_pdf_name (fst e)) l').
Proof.
  induction 1 as [|e e' l l' He _ IH]; [constructor|].
  cbn [filter]. destruct He as [Hn Ha]. rewrite <- Hn.
  destruct (is_pdf_name (fst e)); [constructor; [split|]|]; assumption.
Qed.

Lemma same_file_key (e e' : entry) : same_file e e' -> name_key e = name_key e'.
Proof. intros [H _]. unfold name_key. now rewrite H. Qed.

Lemma pdf_files_alike (l l' : list entry) :
  Forall2 same_file l l' ->
  match pdf_files_of l with
  | Raise e => pdf_files_of l' = Raise e
  | Ok r => exists r', pdf_files_of l' = Ok r' /\ Forall2 same_file r r'
  end.
Proof.
  intros H. apply filter_alike in H.
  apply (list_sort_related name_key name_key_alternating same_file
                           same_file_key _ _ H).
Qed.

(** The loop over the folders ends in the same way, with the same result,
    when a candidate that has a key and whose append fails is taken out of
    the listing of some folders. *)
Lemma process_folders_without (x : entry) (k : key) (reason : string)
      (fs fs' : list (string * list entry)) :
  is_pdf_name (fst x) = true ->
  natural_sort_key (fst x) = Ok k ->
  pdf_append (snd x) = inl reason ->
  Forall2 (similar x) fs fs' ->
  forall st st', same_outcome st st' ->
    raised (process_folders fs st) = raised (process_folders fs' st') /\
    same_outcome (final (process_folders fs st))
                 (final (process_folders fs' st')).
Proof.
  intros Hpdf Hk Hx Hfs.
  induction Hfs as [|[folder listing] [folder' listing'] fs fs' Hf _ IH];
    intros st st' Hst; cbn [process_folders].
  - split; [reflexivity|exact Hst].
  - assert (Hst1 : same_outcome (emit st [Listdir folder])
                                (emit st' [Listdir folder']))
      by (now apply same_outcome_emit).
    destruct Hf as [Hfolder [Hl|(l1 & l2 & Hl & Hl')]];
      cbn [fst snd] in *; subst folder'.
    + pose proof (pdf_files_alike listing listing' Hl) as Hs.
      destruct (pdf_files_of listing) as [files|e].
      * destruct Hs as (files' & -> & Hfiles).
        apply IH. now apply add_pdfs_alike.
      * rewrite Hs. cbn [raised final]. split; [reflexivity|exact Hst1].
    + subst listing.
      pose proof (pdf_files_without x k l1 l2 Hpdf Hk) as Hs.
      pose proof (pdf_files_alike (l1 ++ l2) listing' Hl') as Hs'.
      destruct (pdf_files_of (l1 ++ x :: l2)) as [files|e].
      * destruct Hs as (d1 & d2 & -> & Hs). rewrite Hs in Hs'.
        destruct Hs' as (files' & -> & Hfiles).
        apply IH.
        apply (same_outcome_trans _ (add_pdfs folder (d1 ++ d2)
                                       (emit st [Listdir folder]))).
        -- apply (add_pdfs_without folder reason); [exact Hx|].
           apply same_outcome_refl.
        -- now apply add_pdfs_alike.
      * rewrite Hs in Hs'. rewrite Hs'. cbn [raised final].
        split; [reflexivity|exact Hst1].
Qed.

Lemma same_outcome_save (out : string) (st st' : state) :
  same_outcome st st' ->
  same_outcome (save_result out st) (save_result out st').
Proof.
  intros (Hm & Hc & Ha & Hw). unfold save_result. rewrite Hc, Hm.
  destruct (0 <? pdf_count st')%nat; unfold same_outcome, emit; simpl;
    rewrite !appended_app, !written_app, Ha, Hw; auto.
Qed.

Lemma similar_key (x : entry) (f f' : string * list entry) :
  similar x f f' -> name_key f = name_key f'.
Proof. intros [H _]. unfold name_key. now rewrite H. Qed.

(** The number of successful appends is the counter of the run, and the
    accumulated document holds their pages. *)
Lemma counted_appends (w : world) (src out : string) :
  pdf_count (final (combine_pdfs w src out))
  = List.length (appended (trace (final (combine_pdfs w src out)))).
Proof.
  assert (Hplan : forall (pl : plan) (ending : list event),
             appended ending = [] ->
             List.length
               (appended (prepare_events w out ++ Walk src
                          :: plan_events pl ++ ending))
             = plan_count pl).
  { intros pl ending He. rewrite appended_app. cbn [appended].
    rewrite appended_app, He, app_nil_r.
    assert (appended (prepare_events w out) = []) as ->
      by (unfold prepare_events; now destruct (output_exists w)).
    apply appended_plan. }
  destruct (raised (combine_pdfs w src out)) as [e|] eqn:R.
  - apply combine_pdfs_raises in R
      as [(_ & _ & Hc & Ht)|(fs1 & f & fs2 & pl & _ & _ & _ & _ & Hc & Ht)].
    + rewrite Hc, Ht. symmetry. apply (Hplan [] []). reflexivity.
    + rewrite Hc, Ht. symmetry. now apply Hplan.
  - apply combine_pdfs_returns in R as (fs & pl & _ & _ & _ & Hc & Ht).
    rewrite Hc, Ht. symmetry. apply Hplan.
    unfold save_events. now destruct (0 <? plan_count pl)%nat.
Qed.

Lemma combine_pdfs_without (w w' : world) (src out reason : string)
      (x : entry) (k : key) :
  is_pdf_name (fst x) = true ->
  natural_sort_key (fst x) = Ok k ->
  pdf_append (snd x) = inl reason ->
  output_exists w' = output_exists w ->
  Forall2 (similar x) (os_walk w src) (os_walk w' src) ->
  raised (combine_pdfs w src out) = raised (combine_pdfs w' src out) /\
  same_outcome (final (combine_pdfs w src out))
               (final (combine_pdfs w' src out)).
Proof.
  intros Hpdf Hk Hx Hout Hsim. unfold combine_pdfs. rewrite Hout.
  set (st1 := emit _ [Walk src]). fold (@name_key (list entry)).
  pose proof (list_sort_related name_key name_key_alternating (similar x)
                                (similar_key x) _ _ Hsim) as Hs.
  destruct (list_sort name_key (os_walk w src)) as [fs|e].
  - destruct Hs as (fs' & -> & Hfs).
    destruct (process_folders_without x k reason fs fs' Hpdf Hk Hx Hfs
                                      st1 st1 (same_outcome_refl st1))
      as [Hr Ho].
    rewrite <- Hr. destruct (raised (process_folders fs st1)) eqn:R.
    + split; [now rewrite R, Hr|exact Ho].
    + split; [reflexivity|]. cbn [final]. now apply same_outcome_save.
  - rewrite Hs. split; [reflexivity|apply same_outcome_refl].
Qed.

Lemma console_in (t : list event) (m : message) :
  In (Print m) t -> In m (console t).
Proof.
  induction t as [|ev t IH]; [intros []|]. intros [->|H].
  - now left.
  - destruct ev; simpl; auto.
Qed.

Lemma planned_for (fs : list (string * list entry)) (pl : plan)
      (f : string * list entry) :
  Forall2 plans_folder fs pl -> In f fs ->
  exists p, In p pl /\ plans_folder f p.
Proof.
  induction 1 as [|f0 p fs pl Hp _ IH]; intros Hin; [destruct Hin|].
  destruct Hin as [->|Hin].
  - exists p. split; [now left|exact Hp].
  - destruct (IH Hin) as (q & ? & ?). exists q. split; [now right|assumption].
Qed.

(** In a run that returns, a candidate whose append fails has its failure
    in the trace, followed by the line that reports it. *)
Lemma failure_reported (w : world) (src out folder reason : string)
      (listing : list entry) (x : entry) :
  raised (combine_pdfs w src out) = None ->
  In (folder, listing) (os_walk w src) -> In x listing ->
  is_pdf_name (fst x) = true ->
  pdf_append (snd x) = inl reason ->
  In (Append (os_path_join folder (fst x)) (inl reason))
     (trace (final (combine_pdfs w src out))) /\
  In (ErrorAdding (os_path_join folder (fst x)) reason)
     (console (trace (final (combine_pdfs w src out)))).
Proof.
  intros R Hf Hin Hpdf Hx.
  destruct (combine_pdfs_returns w src out R)
    as (fs & pl & Hfs & Hpl & _ & _ & Ht).
  apply (list_sort_sorted name_key name_key_alternating) in Hfs as [P _].
  apply (Permutation_in _ P) in Hf.
  destruct (planned_for fs pl _ Hpl Hf) as ([folder' files] & Hp & Hfolder & Hs).
  cbn [fst snd] in *. subst folder'.
  apply pdf_files_of_sorted in Hs as [P' _].
  assert (Hx' : In x files).
  { eapply Permutation_in; [exact P'|]. apply filter_In. auto. }
  assert (Hev : forall ev, In ev (attempt_events folder x) ->
                           In ev (trace (final (combine_pdfs w src out)))).
  { intros ev Hev. rewrite Ht. apply in_or_app. right. right.
    apply in_or_app. left. unfold plan_events. apply in_flat_map.
    exists (folder, files). split; [exact Hp|]. right. cbn [fst snd].
    apply in_flat_map. eauto. }
  rewrite (appended_failed_attempt folder reason x Hx) in Hev.
  split.
  - apply Hev. now left.
  - apply console_in, Hev. right. now left.
Qed.

Lemma appended_prepare (w : world) (out : string) :
  appended (prepare_events w out) = [].
Proof. unfold prepare_events. now destruct (output_exists w). Qed.

Lemma appended_save (out : string) (n : nat) (d : document) :
  appended (save_events out n d) = [].
Proof. unfold save_events. now destruct (0 <? n)%nat. Qed.

Lemma appended_outline (w : world) (out src : string) (pl : plan)
      (ending : list event) :
  appended ending = [] ->
  appended (prepare_events w out ++ Walk src :: plan_events pl ++ ending)
  = appended (plan_events pl).
Proof.
  intros He. rewrite appended_app, appended_prepare. cbn [appended app].
  now rewrite appended_app, He, app_nil_r.
Qed.

(** What the events of a plan append is what the plan says. *)
Lemma appended_attempt (folder : string) (e : entry) :
  appended (attempt_events folder e) = attempt_appended folder e.
Proof.
  unfold attempt_events, attempt_appended. now destruct (pdf_append (snd e)).
Qed.

Lemma appended_plan_events (pl : plan) :
  appended (plan_events pl) = plan_appended pl.
Proof.
  unfold plan_events, plan_appended.
  induction pl as [|[folder files] pl IH]; [reflexivity|].
  cbn [flat_map fst snd]. rewrite appended_app. f_equal; [|exact IH].
  unfold folder_events. cbn [fst snd appended].
  clear. induction files as [|e files IH]; [reflexivity|].
  cbn [flat_map]. rewrite appended_app, appended_attempt. f_equal. exact IH.
Qed.

Lemma failures_reported_nil : failures_reported [].
Proof. intros [|ev t1] t2 p reason H; discriminate H. Qed.

Lemma failures_reported_other (ev : event) (t : list event) :
  (forall p reason, ev <> Append p (inl reason)) ->
  failures_reported t -> failures_reported (ev :: t).
Proof.
  intros Hev Ht [|ev1 t1] t2 p reason H; simpl in H.
  - injection H as H _. now destruct (Hev p reason).
  - injection H as _ H. exact (Ht t1 t2 p reason H).
Qed.

Lemma failures_reported_failed (p reason : string) (t : list event) :
  failures_reported t ->
  failures_reported (Append p (inl reason) :: Print (ErrorAdding p reason) :: t).
Proof.
  intros Ht [|ev1 [|ev2 t1]] t2 q r H; simpl in H.
  - injection H as <- <- <-. eauto.
  - injection H as _ H. discriminate H.
  - injection H as _ _ H. exact (Ht t1 t2 q r H).
Qed.

Lemma failures_reported_attempts (folder : string) (files : list entry)
      (t : list event) :
  failures_reported t ->
  failures_reported (flat_map (attempt_events folder) files ++ t).
Proof.
  intros Ht. induction files as [|e files IH]; [exact Ht|].
  cbn [flat_map]. rewrite <- app_assoc. unfold attempt_events at 1.
  destruct (pdf_append (snd e)) as [reason|pages]; cbn [app].
  - now apply failures_reported_failed.
  - apply failures_reported_other; [discriminate|].
    apply failures_reported_other; [discriminate|exact IH].
Qed.

Lemma failures_reported_plan (pl : plan) (t : list event) :
  failures_reported t -> failures_reported (plan_events pl ++ t).
Proof.
  intros Ht. unfold plan_events.
  induction pl as [|[folder files] pl IH]; [exact Ht|].
  cbn [flat_map folder_events fst snd]. rewrite <- app_assoc. cbn [app].
  apply failures_reported_other; [discriminate|].
  now apply failures_reported_attempts.
Qed.

Lemma failures_reported_outline (w : world) (src out : string) (pl : plan)
      (ending : list event) :
  failures_reported ending ->
  failures_reported
    (prepare_events w out ++ Walk src :: plan_events pl ++ ending).
Proof.
  intros He.
  assert (H : failures_reported (Walk src :: plan_events pl ++ ending)).
  { apply failures_reported_other; [discriminate|].
    now apply failures_reported_plan. }
  unfold prepare_events. destruct (output_exists w); [exact H|].
  cbn [app]. apply failures_reported_other; [discriminate|].
  apply failures_reported_other; [discriminate|exact H].
Qed.

Lemma failures_reported_save (out : string) (n : nat) (d : document) :
  failures_reported (save_events out n d).
Proof.
  unfold save_events. destruct (0 <? n)%nat;
    repeat (apply failures_reported_other; [discriminate|]);
    apply failures_reported_nil.
Qed.

(** Every run, returning or not, has processed a plan of folders that the
    walk found, all of them when it returns; what it appended, its document
    and its counter are those of the plan. *)
Lemma run_plan (w : world) (src out : string) :
  exists fs (pl : plan) (ending : list event),
    incl fs (os_walk w src) /\
    Forall2 plans_folder fs pl /\
    (raised (combine_pdfs w src out) = None ->
     Permutation (os_walk w src) fs) /\
    trace (final (combine_pdfs w src out))
      = prepare_events w out ++ Walk src :: plan_events pl ++ ending /\
    appended ending = [] /\
    failures_reported ending /\
    merger (final (combine_pdfs w src out)) = plan_pages pl /\
    pdf_count (final (combine_pdfs w src out)) = plan_count pl.
Proof.
  destruct (raised (combine_pdfs w src out)) as [e|] eqn:R.
  - apply combine_pdfs_raises in R
      as [(_ & Hm & Hc & Ht)|(fs1 & f & fs2 & pl & Hfs & Hpl & _ & Hm & Hc & Ht)].
    + exists [], [], []. rewrite Ht, Hm, Hc.
      split; [intros x []|]. split; [constructor|].
      split; [discriminate|]. split; [reflexivity|].
      split; [reflexivity|]. split; [apply failures_reported_nil|]. auto.
    + exists fs1, pl, [Listdir (fst f)]. rewrite Ht, Hm, Hc.
      split.
      { apply (list_sort_sorted name_key name_key_alternating) in Hfs as [P _].
        intros x Hx. eapply Permutation_in; [symmetry; exact P|].
        apply in_or_app. now left. }
      split; [exact Hpl|]. split; [discriminate|]. split; [reflexivity|].
      split; [reflexivity|]. split; [|auto].
      apply failures_reported_other; [discriminate|].
      apply failures_reported_nil.
  - apply combine_pdfs_returns in R as (fs & pl & Hfs & Hpl & Hm & Hc & Ht).
    exists fs, pl, (save_events out (plan_count pl) (plan_pages pl)).
    rewrite Ht, Hm, Hc.
    apply (list_sort_sorted name_key name_key_alternating) in Hfs as [P _].
    split; [intros x Hx; eapply Permutation_in; [symmetry; exact P|exact Hx]|].
    split; [exact Hpl|]. split; [intros _; exact P|].
    split; [reflexivity|]. split; [apply appended_save|].
    split; [apply failures_reported_save|]. auto.
Qed.

(** In a run that returns, a candidate that can be read is appended with
    its pages. *)
Lemma readable_candidate_appended (w : world) (src out folder : string)
      (listing : list entry) (y : entry) (pages : document) :
  raised (combine_pdfs w src out) = None ->
  In (folder, listing) (os_walk w src) -> In y listing ->
  is_pdf_name (fst y) = true ->
  pdf_append (snd y) = inr pages ->
  In (os_path_join folder (fst y), pages)
     (appended (trace (final (combine_pdfs w src out)))).
Proof.
  intros R Hf Hin Hpdf Hy.
  destruct (run_plan w src out)
    as (fs & pl & ending & _ & Hpl & P & Ht & He & _ & _ & _).
  apply (Permutation_in _ (P R)) in Hf.
  destruct (planned_for fs pl _ Hpl Hf) as ([folder' files] & Hp & Hfolder & Hs).
  cbn [fst snd] in *. subst folder'.
  apply pdf_files_of_sorted in Hs as [P' _].
  assert (Hy' : In y files).
  { eapply Permutation_in; [exact P'|]. apply filter_In. auto. }
  rewrite Ht, (appended_outline w out src pl ending He), appended_plan_events.
  unfold plan_appended. apply in_flat_map.
  exists (folder, files). split; [exact Hp|]. cbn [fst snd].
  apply in_flat_map. exists y. split; [exact Hy'|].
  unfold attempt_appended. rewrite Hy. now left.
Qed.

(** C5. For every candidate file whose append raises an error (a file with
    a PDF name, hence with a sort key when it is reached), the error is
    caught and the other files are appended as if that file were not there.
    In every run, whether it returns or raises, each append that raised is
    followed at once by the line that reports it with the path and the
    reason, and the run goes on with a plan made of folders of the walk (all
    of them when it returns), each with its candidates as sorted: the files
    appended are exactly the readable candidates of the plan with their
    pages, in order, the accumulated document is made of their pages and the
    counter is their number.  When the run returns, every readable candidate
    of the tree is appended with its pages, and the failed append is in the
    trace with the line that reports it on the console.  The run ends in the
    same way as the run on the tree without the failing file, returning or
    raising alike, with the same files appended with the same pages in the
    same order, the same accumulated document, the same counter and the same
    file written. *)
Theorem failed_append_is_isolated (w w' : world) (src out folder reason : string)
        (listing : list entry) (x : entry) (k : key) :
  In (folder, listing) (os_walk w src) -> In x listing ->
  is_pdf_name (fst x) = true ->
  natural_sort_key (fst x) = Ok k ->
  pdf_append (snd x) = inl reason ->
  output_exists w' = output_exists w ->
  Forall2 (similar x) (os_walk w src) (os_walk w' src) ->
  failures_reported (trace (final (combine_pdfs w src out))) /\
  (exists fs (pl : plan) (ending : list event),
     incl fs (os_walk w src) /\
     Forall2 plans_folder fs pl /\
     (raised (combine_pdfs w src out) = None ->
      Permutation (os_walk w src) fs) /\
     trace (final (combine_pdfs w src out))
       = prepare_events w out ++ Walk src :: plan_events pl ++ ending /\
     appended ending = [] /\
     appended (trace (final (combine_pdfs w src out))) = plan_appended pl /\
     merger (final (combine_pdfs w src out))
       = flat_map snd (plan_appended pl) /\
     pdf_count (final (combine_pdfs w src out))
       = List.length (plan_appended pl)) /\
  (raised (combine_pdfs w src out) = None ->
   (forall folder' listing' y pages,
      In (folder', listing') (os_walk w src) -> In y listing' ->
      is_pdf_name (fst y) = true ->
      pdf_append (snd y) = inr pages ->
      In (os_path_join folder' (fst y), pages)
         (appended (trace (final (combine_pdfs w src out))))) /\
   In (Append (os_path_join folder (fst x)) (inl reason))
      (trace (final (combine_pdfs w src out))) /\
   In (ErrorAdding (os_path_join folder (fst x)) reason)
      (console (trace (final (combine_pdfs w src out))))) /\
  raised (combine_pdfs w src out) = raised (combine_pdfs w' src out) /\
  appended (trace (final (combine_pdfs w src out)))
    = appended (trace (final (combine_pdfs w' src out))) /\
  merger (final (combine_pdfs w src out))
    = merger (final (combine_pdfs w' src out)) /\
  written (trace (final (combine_pdfs w src out)))
    = written (trace (final (combine_pdfs w' src out))) /\
  pdf_count (final (combine_pdfs w src out))
    = pdf_count (final (combine_pdfs w' src out)) /\
  pdf_count (final (combine_pdfs w src out))
    = List.length (appended (trace (final (combine_pdfs w src out)))).
Proof.
  intros Hf Hin Hpdf Hk Hx Hout Hsim.
  destruct (run_plan w src out)
    as (fs & pl & ending & Hincl & Hpl & P & Ht & He & Hrep & Hm & Hc).
  assert (Ha : appended (trace (final (combine_pdfs w src out)))
               = plan_appended pl).
  { rewrite Ht, (appended_outline w out src pl ending He).
    apply appended_plan_events. }
  destruct (appended_plan pl) as [Hpages Hcount].
  rewrite appended_plan_events in Hpages, Hcount.
  split.
  { rewrite Ht. now apply failures_reported_outline. }
  split.
  { exists fs, pl, ending. rewrite Hm, Hc, Hpages, Hcount. auto 10. }
  split.
  { intros R. split.
    - intros folder' listing' y pages Hf' Hin' Hpdf' Hy.
      now apply (readable_candidate_appended w src out folder' listing').
    - eapply failure_reported; eassumption. }
  destruct (combine_pdfs_without w w' src out reason x k Hpdf Hk Hx Hout Hsim)
    as (Hr & Hm' & Hc' & Ha' & Hw).
  repeat (split; [assumption|]).
  apply counted_appends.
Qed.

Lemma failed_append_is_isolated_witness :
  failures_reported (trace (final (combine_pdfs library "." "../out"))) /\
  (exists fs (pl : plan) (ending : list event),
     incl fs (os_walk library ".") /\
     Forall2 plans_folder fs pl /\
     (raised (combine_pdfs library "." "../out") = None ->
      Permutation (os_walk library ".") fs) /\
     trace (final (combine_pdfs library "." "../out"))
       = prepare_events library "../out" ++ Walk "." :: plan_events pl ++ ending /\
     appended ending = [] /\
     appended (trace (final (combine_pdfs library "." "../out")))
       = plan_appended pl /\
     merger (final (combine_pdfs library "." "../out"))
       = flat_map snd (plan_appended pl) /\
     pdf_count (final (combine_pdfs library "." "../out"))
       = List.length (plan_appended pl)) /\
  (raised (combine_pdfs library "." "../out") = None ->
   (forall folder' listing' y pages,
      In (folder', listing') (os_walk library ".") -> In y listing' ->
      is_pdf_name (fst y) = true ->
      pdf_append (snd y) = inr pages ->
      In (os_path_join folder' (fst y), pages)
         (appended (trace (final (combine_pdfs library "." "../out"))))) /\
   In (Append (os_path_join "./sub" "x.PDF") (inl "bad"))
      (trace (final (combine_pdfs library "." "../out"))) /\
   In (ErrorAdding (os_path_join "./sub" "x.PDF") "bad")
      (console (trace (final (combine_pdfs library "." "../out"))))) /\
  raised (combine_pdfs library "." "../out")
    = raised (combine_pdfs library_without_unreadable "." "../out") /\
  appended (trace (final (combine_pdfs library "." "../out")))
    = appended (trace (final (combine_pdfs library_without_unreadable "." "../out"))) /\
  merger (final (combine_pdfs library "." "../out"))
    = merger (final (combine_pdfs library_without_unreadable "." "../out")) /\
  written (trace (final (combine_pdfs library "." "../out")))
    = written (trace (final (combine_pdfs library_without_unreadable "." "../out"))) /\
  pdf_count (final (combine_pdfs library "." "../out"))
    = pdf_count (final (combine_pdfs library_without_unreadable "." "../out")) /\
  pdf_count (final (combine_pdfs library "." "../out"))
    = List.length (appended (trace (final (combine_pdfs library "." "../out")))).
Proof.
  apply (failed_append_is_isolated
           library library_without_unreadable "." "../out" "./sub" "bad"
           [("x.PDF", File (Unreadable "bad")); ("y.txt", File (Pdf [99]));
            ("b.pdf", File (Pdf [7]))]
           ("x.PDF", File (Unreadable "bad"))
           [TStr "x.pdf"]).
  - vm_compute. right. left. reflexivity.
  - left. reflexivity.
  - reflexivity.
  - reflexivity.
  - reflexivity.
  - reflexivity.
  - cbv [os_walk source library library_without_unreadable walk].
    constructor.
    + split; [reflexivity|]. left. cbn [snd].
      repeat (constructor; [split; reflexivity|]). constructor.
    + constructor; [|constructor].
      split; [reflexivity|]. right. cbn [snd].
      exists [], [("y.txt", File (Pdf [99])); ("b.pdf", File (Pdf [7]))].
      split; [reflexivity|]. apply same_file_refl.
Defined.

(* ===================================================================== *)
(** ** The split on maximal digit runs is unique *)
(* ===================================================================== *)

(** A prefix of characters that satisfy [p], followed by nothing or by a
    character that does not, is determined by the whole string. *)
Lemma maximal_prefix_unique (p : ascii -> bool) (t t' s s' : string) :
  all_chars p t = true -> all_chars p t' = true ->
  (s = EmptyString \/ exists c r, s = String c r /\ p c = false) ->
  (s' = EmptyString \/ exists c r, s' = String c r /\ p c = false) ->
  (t ++ s)%string = (t' ++ s')%string ->
  t = t' /\ s = s'.
Proof.
  revert t'. induction t as [|x t IH]; intros [|x' t'] Ht Ht' Hs Hs' E;
    simpl in *.
  - auto.
  - exfalso. apply andb_true_iff in Ht' as [Hx' _].
    destruct Hs as [->|(c & r & -> & Hc)]; [discriminate|].
    injection E as -> _. congruence.
  - exfalso. apply andb_true_iff in Ht as [Hx _].
    destruct Hs' as [->|(c & r & -> & Hc)]; [discriminate|].
    injection E as <- _. congruence.
  - apply andb_true_iff in Ht as [_ Ht], Ht' as [_ Ht'].
    injection E as -> E.
    destruct (IH t' Ht Ht' Hs Hs' E) as [-> ->]. auto.
Qed.

Lemma append_empty_r (s : string) : (s ++ EmptyString)%string = s.
Proof. induction s as [|c s IH]; simpl; [reflexivity|now rewrite IH]. Qed.

(** What follows a digit run in a split: nothing, or a character that is
    not a decimal digit. *)
Lemma after_digit_run (rest : list string) :
  digit_split rest ->
  (forall t d rest', rest = t :: d :: rest' -> t <> EmptyString) ->
  joined rest = EmptyString \/
  exists c r, joined rest = String c r /\ re_digit c = false.
Proof.
  intros D Hne. destruct D as [t Ht|t d rest' Ht _ _ _ _].
  - destruct t as [|c t]; [now left|]. right.
    simpl in Ht. apply andb_true_iff in Ht as [Hc _].
    exists c, (t ++ EmptyString)%string. split; [reflexivity|].
    now apply negb_true_iff in Hc.
  - destruct t as [|c t]; [now destruct (Hne _ _ _ eq_refl)|]. right.
    simpl in Ht. apply andb_true_iff in Ht as [Hc _].
    simpl. eexists _, _. split; [reflexivity|].
    now apply negb_true_iff in Hc.
Qed.

(** What follows the first text of a split with a digit run: a decimal
    digit. *)
Lemma digit_run_head (d : string) (rest : list string) :
  d <> EmptyString -> all_chars re_digit d = true ->
  exists c r, (d ++ joined rest)%string = String c r /\ not_digit c = false.
Proof.
  intros Hne Hd. destruct d as [|c d]; [congruence|].
  simpl in Hd. apply andb_true_iff in Hd as [Hc _].
  simpl. eexists _, _. split; [reflexivity|].
  unfold not_digit. now rewrite Hc.
Qed.

(** Two splits on maximal digit runs of the same string are the same
    list of pieces: [re_split] returns the only one. *)
Lemma digit_split_unique (l l' : list string) :
  digit_split l -> digit_split l' -> joined l = joined l' -> l = l'.
Proof.
  intros D. revert l'.
  induction D as [t Ht|t d rest Ht Hne Hd Hin Hrest IH];
    intros l' D' E; destruct D' as [t' Ht'|t' d' rest' Ht' Hne' Hd' Hin' Hrest'];
    cbn [joined fold_right] in E.
  - rewrite !append_empty_r in E. now subst.
  - exfalso.
    destruct (maximal_prefix_unique not_digit t t' EmptyString
                (d' ++ joined rest')%string Ht Ht') as [_ E'].
    + now left.
    + right. now apply digit_run_head.
    + exact E.
    + destruct d'; [congruence|discriminate].
  - exfalso.
    destruct (maximal_prefix_unique not_digit t t'
                (d ++ joined rest)%string EmptyString Ht Ht') as [_ E'].
    + right. now apply digit_run_head.
    + now left.
    + exact E.
    + destruct d; [congruence|discriminate].
  - destruct (maximal_prefix_unique not_digit t t'
                (d ++ joined rest)%string (d' ++ joined rest')%string Ht Ht')
      as [-> E'].
    + right. now apply digit_run_head.
    + right. now apply digit_run_head.
    + exact E.
    + destruct (maximal_prefix_unique re_digit d d' (joined rest)
                  (joined rest') Hd Hd') as [-> E''].
      * now apply after_digit_run.
      * now apply after_digit_run.
      * exact E'.
      * now rewrite (IH rest' Hrest' E'').
Qed.

(** [re.split(r'(\d+)', s)] is the split of [s] on its maximal digit runs. *)
Lemma re_split_characterised (s : string) (pieces : list string) :
  re_split s = pieces <-> (digit_split pieces /\ joined pieces = s).
Proof.
  split.
  - intros <-. split; [apply re_split_digit_split|apply re_split_joined].
  - intros [D E]. apply digit_split_unique.
    + apply re_split_digit_split.
    + exact D.
    + now rewrite re_split_joined.
Qed.

(* ===================================================================== *)
(** ** Further properties of natural_sort_key *)
(* ===================================================================== *)

Lemma text_digits_are_superscripts (t : string) :
  all_chars not_digit t = true -> isdigit t = true -> superscript_piece t.
Proof.
  intros Hn Hd. split; [now destruct t|].
  destruct t as [|c0 t0]; [discriminate|]. unfold isdigit in Hd.
  revert Hn Hd. generalize (String c0 t0). clear.
  induction s as [|c s IH]; simpl; [reflexivity|]. intros Hn Hd.
  apply andb_true_iff in Hn as [Hc Hn], Hd as [Hc' Hd].
  unfold superscript. rewrite Hc'. unfold not_digit in Hc. rewrite Hc.
  now apply IH.
Qed.

Lemma superscript_piece_text (p : string) :
  superscript_piece p -> all_chars not_digit p = true /\ isdigit p = true.
Proof.
  intros [Hne Hs]. destruct p as [|c0 p0]; [congruence|]. unfold isdigit.
  clear Hne. revert Hs. generalize (String c0 p0).
  induction s as [|c s IH]; simpl; [auto|]. intros Hs.
  apply andb_true_iff in Hs as [Hc Hs]. unfold superscript in Hc.
  apply andb_true_iff in Hc as [Hd Hn]. destruct (IH Hs) as [-> ->].
  unfold not_digit. now rewrite Hd, Hn.
Qed.

Lemma comprehension_some_raise {A B : Type} (f : A -> result B) (l : list A)
      (x : A) (e : exn) :
  In x l -> f x = Raise e -> exists e', comprehension f l = Raise e'.
Proof.
  induction l as [|y l IH]; [intros []|]. intros [->|Hin] Hx; simpl.
  - rewrite Hx. simpl. eauto.
  - destruct (f y); simpl; [|eauto].
    destruct (IH Hin Hx) as (e' & ->). simpl. eauto.
Qed.

(** X1. When [natural_sort_key] returns, its result is read off the split
    of the string on its maximal digit runs: the pieces joined give the
    string back, no other list of pieces splits the string in that way, and
    the key holds, piece by piece, the value of each digit run and the
    lowercase of each text between them. *)
Theorem natural_key_of_unique_split (s : string) (k : key) :
  natural_sort_key s = Ok k ->
  exists pieces,
    digit_split pieces /\ joined pieces = s /\
    (forall pieces', digit_split pieces' -> joined pieces' = s ->
                     pieces' = pieces) /\
    Forall2 piece_token pieces k.
Proof.
  intros H. exists (re_split s).
  destruct (natural_sort_key_tokens s k H) as (D & J & T).
  repeat split; auto.
  intros pieces' D' J'. symmetry. now apply re_split_characterised.
Qed.

Lemma natural_key_of_unique_split_witness :
  exists pieces,
    digit_split pieces /\ joined pieces = "File10.PDF" /\
    (forall pieces', digit_split pieces' -> joined pieces' = "File10.PDF" ->
                     pieces' = pieces) /\
    Forall2 piece_token pieces [TStr "file"; TInt 10; TStr ".pdf"].
Proof.
  apply (natural_key_of_unique_split "File10.PDF"). reflexivity.
Defined.

(** X2. [natural_sort_key] raises exactly on the strings whose split holds a
    non-empty piece made of superscript digits only, or a run of decimal
    digits longer than the digit limit of [int]; what it raises is the
    [ValueError] of [int] on such a piece. *)
Theorem natural_key_failure (s : string) :
  (forall e, natural_sort_key s = Raise e ->
             exists p, e = ValueError p /\ In p (re_split s) /\
                       (superscript_piece p \/ long_run p)) /\
  ((exists p, In p (re_split s) /\ (superscript_piece p \/ long_run p)) ->
   exists e, natural_sort_key s = Raise e).
Proof.
  split.
  - intros e H. apply comprehension_raise in H as (p & Hin & Hp).
    pose proof (digit_split_parts _ (re_split_digit_split s)) as F.
    rewrite Forall_forall in F. destruct (F p Hin) as [Ht|[Hne Hd]].
    + destruct (key_token_text p Ht) as [[_ E]|[Hd E]]; [congruence|].
      exists p. split; [congruence|]. split; [exact Hin|]. left.
      now apply text_digits_are_superscripts.
    + destruct (key_token_run p Hne Hd) as (n & _ & E). rewrite E in Hp.
      destruct (within_limit p) eqn:L; [discriminate|].
      exists p. split; [congruence|]. split; [exact Hin|]. right.
      now split.
  - intros (p & Hin & [Hp|[Hd L]]).
    + apply superscript_piece_text in Hp as [Ht Hd].
      destruct (key_token_text p Ht) as [[E _]|[_ E]]; [congruence|].
      eapply comprehension_some_raise; eassumption.
    + assert (Hne : p <> EmptyString) by (intros ->; discriminate L).
      destruct (key_token_run p Hne Hd) as (n & _ & E). rewrite L in E.
      eapply comprehension_some_raise; eassumption.
Qed.

Lemma natural_key_failure_witness :
  exists e, natural_sort_key two_squared = Raise e.
Proof.
  apply (proj2 (natural_key_failure two_squared)).
  exists superscript_two. split; [right; right; left; reflexivity|].
  left. split; [discriminate|reflexivity].
Defined.

(** *** Case *)

Lemma lower_char_digit (c : ascii) : re_digit (lower_char c) = re_digit c.
Proof. destruct c as [[] [] [] [] [] [] [] []]; reflexivity. Qed.

Lemma lower_char_isdigit (c : ascii) :
  isdigit_char (lower_char c) = isdigit_char c.
Proof. destruct c as [[] [] [] [] [] [] [] []]; reflexivity. Qed.

Lemma lower_char_idempotent (c : ascii) :
  lower_char (lower_char c) = lower_char c.
Proof. destruct c as [[] [] [] [] [] [] [] []]; reflexivity. Qed.

Lemma lower_char_of_digit (c : ascii) :
  isdigit_char c = true -> lower_char c = c.
Proof. destruct c as [[] [] [] [] [] [] [] []]; try reflexivity; discriminate. Qed.

Lemma lower_idempotent (s : string) : lower (lower s) = lower s.
Proof.
  induction s as [|c s IH]; simpl; [reflexivity|].
  now rewrite lower_char_idempotent, IH.
Qed.

Lemma all_digits_lower (s : string) :
  all_chars isdigit_char (lower s) = all_chars isdigit_char s.
Proof.
  induction s as [|c s IH]; simpl; [reflexivity|].
  now rewrite lower_char_isdigit, IH.
Qed.

Lemma isdigit_lower (s : string) : isdigit (lower s) = isdigit s.
Proof.
  destruct s as [|c s]; [reflexivity|].
  change (isdigit (lower (String c s)))
    with (all_chars isdigit_char (lower (String c s))).
  apply all_digits_lower.
Qed.

Lemma lower_of_digits (s : string) :
  all_chars isdigit_char s = true -> lower s = s.
Proof.
  induction s as [|c s IH]; simpl; [reflexivity|]. intros H.
  apply andb_true_iff in H as [Hc Hs].
  now rewrite (lower_char_of_digit c Hc), IH.
Qed.

Lemma re_split_lower (s : string) :
  re_split (lower s) = map lower (re_split s).
Proof.
  induction s as [|c s IH]; [reflexivity|]. cbn [lower re_split].
  rewrite IH, lower_char_digit.
  destruct (re_split s) as [|p0 rest]; [reflexivity|]. cbn [map].
  destruct (re_digit c); [|reflexivity].
  destruct p0 as [|x p0]; [destruct rest|]; reflexivity.
Qed.

Lemma key_token_lower (p : string) : key_token (lower p) = key_token p.
Proof.
  unfold key_token. rewrite isdigit_lower.
  destruct (isdigit p) eqn:Hd.
  - rewrite lower_of_digits; [reflexivity|]. now destruct p.
  - now rewrite lower_idempotent.
Qed.

Lemma comprehension_map {A B C : Type} (g : A -> B) (f : B -> result C)
      (l : list A) :
  comprehension f (map g l) = comprehension (fun x => f (g x)) l.
Proof.
  induction l as [|x l IH]; simpl; [reflexivity|]. now rewrite IH.
Qed.

Lemma comprehension_ext {A B : Type} (f g : A -> result B) (l : list A) :
  (forall x, f x = g x) -> comprehension f l = comprehension g l.
Proof.
  intros H. induction l as [|x l IH]; simpl; [reflexivity|].
  now rewrite H, IH.
Qed.

Lemma natural_sort_key_lower (s : string) :
  natural_sort_key (lower s) = natural_sort_key s.
Proof.
  unfold natural_sort_key. rewrite re_split_lower, comprehension_map.
  apply comprehension_ext, key_token_lower.
Qed.

(** X3. [natural_sort_key] does not see case: two names with the same
    lowercase have the same key, or raise the same exception. *)
Theorem natural_key_ignores_case (s t : string) :
  lower s = lower t -> natural_sort_key s = natural_sort_key t.
Proof.
  intros H. rewrite <- (natural_sort_key_lower s), H.
  apply natural_sort_key_lower.
Qed.

Lemma natural_key_ignores_case_witness :
  natural_sort_key "Chapter2.PDF" = natural_sort_key "chapter2.pdf".
Proof. apply (natural_key_ignores_case "Chapter2.PDF" "chapter2.pdf"). reflexivity. Defined.

(* ===================================================================== *)
(** ** Further properties of the natural order and of the sort *)
(* ===================================================================== *)

Lemma key_le_antisym (a b : key) (p : bool) :
  alternating p a -> alternating p b -> key_le a b -> key_le b a -> a = b.
Proof.
  unfold key_le. revert b p.
  induction a as [|x a IH]; intros [|y b] p Ha Hb; simpl; try congruence.
  destruct (alternating_heads _ _ _ _ _ Ha Hb) as (Hk & Ha' & Hb').
  rewrite (token_eqb_sym y x).
  destruct (token_eqb x y) eqn:E.
  - apply token_eqb_eq in E as ->. intros H1 H2. f_equal. eapply IH; eauto.
  - destruct (token_lt_total x y Hk E) as (r & -> & ->).
    intros H1 H2. injection H1 as H1. injection H2 as H2.
    destruct r; discriminate.
Qed.

(** X4. On the names that have a key, the natural order is a total
    preorder: every name is in order with itself, any two names are in order
    one way or the other, the order is transitive, and two names tie exactly
    when their keys are equal. *)
Theorem natural_order_is_total_preorder (s t u : string) :
  sortable s -> sortable t -> sortable u ->
  natural_le s s /\
  (natural_le s t \/ natural_le t s) /\
  (natural_le s t -> natural_le t u -> natural_le s u) /\
  (natural_le s t /\ natural_le t s <-> natural_sort_key s = natural_sort_key t).
Proof.
  intros (ks & Hs) (kt & Ht) (ku & Hu).
  pose proof (natural_sort_key_alternating s ks Hs) as As.
  pose proof (natural_sort_key_alternating t kt Ht) as At.
  pose proof (natural_sort_key_alternating u ku Hu) as Au.
  split; [exists ks, ks; repeat split; auto; apply key_lt_irrefl|].
  split.
  { destruct (key_le_total ks kt true As At) as [H|H];
      [left; exists ks, kt|right; exists kt, ks]; auto. }
  split.
  { intros (a & b & Ha & Hb & Hab) (b' & c & Hb' & Hc & Hbc).
    rewrite Hs in Ha. rewrite Ht in Hb, Hb'. rewrite Hu in Hc.
    injection Ha as <-. injection Hb as <-. injection Hb' as <-.
    injection Hc as <-. exists ks, ku. repeat split; auto.
    eapply (key_le_trans ks kt ku true); eassumption. }
  split.
  - intros [(a & b & Ha & Hb & Hab) (b' & a' & Hb' & Ha' & Hba)].
    rewrite Hs in Ha, Ha'. rewrite Ht in Hb, Hb'.
    injection Ha as <-. injection Hb as <-. injection Hb' as <-.
    injection Ha' as <-. rewrite Hs, Ht. f_equal.
    eapply key_le_antisym; eassumption.
  - intros E. rewrite Hs, Ht in E. injection E as <-.
    split; exists ks, ks; repeat split; auto; apply key_lt_irrefl.
Qed.

Lemma natural_order_is_total_preorder_witness :
  natural_le "a2.pdf" "a2.pdf" /\
  (natural_le "a2.pdf" "a10.pdf" \/ natural_le "a10.pdf" "a2.pdf") /\
  (natural_le "a2.pdf" "a10.pdf" -> natural_le "a10.pdf" "b1.pdf" ->
   natural_le "a2.pdf" "b1.pdf") /\
  (natural_le "a2.pdf" "a10.pdf" /\ natural_le "a10.pdf" "a2.pdf" <->
   natural_sort_key "a2.pdf" = natural_sort_key "a10.pdf").
Proof.
  apply (natural_order_is_total_preorder "a2.pdf" "a10.pdf" "b1.pdf");
    eexists; reflexivity.
Defined.

(** X5. Sorting a list of names by [natural_sort_key] never raises
    [TypeError]; it raises exactly when the key of one of the names raises,
    and then that exception; otherwise it returns a rearrangement of the
    names in natural order. *)
Theorem sort_by_natural_key (names : list string) :
  list_sort natural_sort_key names <> Raise TypeError /\
  (forall e, list_sort natural_sort_key names = Raise e ->
             exists name, In name names /\ natural_sort_key name = Raise e) /\
  ((forall name, In name names -> sortable name) ->
   exists r, list_sort natural_sort_key names = Ok r) /\
  (forall r, list_sort natural_sort_key names = Ok r ->
             Permutation names r /\ StronglySorted natural_le r /\
             forall name, In name names -> sortable name).
Proof.
  split; [apply sort_never_type_error|].
  split; [apply (list_sort_raise _ natural_sort_key_alternating)|].
  split; [apply (list_sort_ok _ natural_sort_key_alternating)|].
  intros r H.
  destruct (list_sort_sorted _ natural_sort_key_alternating names r H)
    as [P S].
  split; [exact P|]. split; [exact S|].
  exact (list_sort_keys natural_sort_key names r H).
Qed.

Lemma sort_by_natural_key_witness :
  exists r, list_sort natural_sort_key ["a10.pdf"; "A2.pdf"; "a1.pdf"] = Ok r.
Proof.
  apply (proj1 (proj2 (proj2 (sort_by_natural_key
                                ["a10.pdf"; "A2.pdf"; "a1.pdf"])))).
  intros name [<-|[<-|[<-|[]]]]; eexists; reflexivity.
Defined.

(** *** Numbers inside names *)




(** *** Stability and idempotence of the sort *)

Lemma key_eqb_eq (a b : key) : key_eqb a b = true <-> a = b.
Proof.
  revert b. induction a as [|x a IH]; intros [|y b]; simpl;
    try (split; [discriminate|discriminate]); [tauto|].
  rewrite andb_true_iff, token_eqb_eq, IH. split.
  - intros [-> ->]. reflexivity.
  - intros H. injection H as -> ->. auto.
Qed.

Lemma key_lt_differs (a b : key) : key_lt a b = Ok true -> a <> b.
Proof. intros H ->. rewrite key_lt_irrefl in H. discriminate. Qed.

Section Stability.
Context {A : Type}.
Implicit Types (x y : key * A) (l r : list (key * A)).

Lemma insert_stable (k : key) x l r :
  insert x l = Ok r ->
  filter (fun p => key_eqb (fst p) k) r
  = filter (fun p => key_eqb (fst p) k) (x :: l).
Proof.
  revert r. induction l as [|y l IH]; intros r H; cbn [insert] in H.
  - now injection H as <-.
  - apply bind_ok in H as (b & Hb & H). destruct b.
    + apply bind_ok in H as (r' & Hr' & H). injection H as <-.
      cbn [filter]. rewrite (IH r' Hr'). cbn [filter].
      destruct (key_eqb (fst x) k) eqn:Ex; [|reflexivity].
      destruct (key_eqb (fst y) k) eqn:Ey; [|reflexivity].
      apply key_eqb_eq in Ex, Ey. apply key_lt_differs in Hb. congruence.
    + now injection H as <-.
Qed.

Lemma sort_pairs_stable (k : key) l r :
  sort_pairs l = Ok r ->
  filter (fun p => key_eqb (fst p) k) r = filter (fun p => key_eqb (fst p) k) l.
Proof.
  revert r. induction l as [|x l IH]; intros r H; cbn [sort_pairs] in H.
  - now injection H as <-.
  - apply bind_ok in H as (r' & Hr' & H).
    rewrite (insert_stable k x r' r H). cbn [filter].
    now rewrite (IH r' Hr').
Qed.

Lemma sort_pairs_of_sorted l :
  typed_pairs l -> StronglySorted pair_le l -> sort_pairs l = Ok l.
Proof.
  intros Ht Hs. induction Hs as [|x l Hs IH Hx]; [reflexivity|].
  cbn [sort_pairs]. inversion Ht; subst. rewrite IH by assumption.
  cbn [bind]. destruct l as [|y l]; [reflexivity|]. cbn [insert].
  inversion Hx as [|? ? Hxy _]; subst. unfold pair_le, key_le in Hxy.
  now rewrite Hxy.
Qed.

Variable f : A -> result key.

Lemma filter_keyed (k : key) (kl : list (key * A)) :
  Forall (fun p => f (snd p) = Ok (fst p)) kl ->
  filter (has_key f k) (map snd kl)
  = map snd (filter (fun p => key_eqb (fst p) k) kl).
Proof.
  induction 1 as [|p kl Hp _ IH]; [reflexivity|]. cbn [map filter].
  unfold has_key at 1. rewrite Hp, IH.
  now destruct (key_eqb (fst p) k).
Qed.

Lemma keyed_again (kl : list (key * A)) :
  Forall (fun p => f (snd p) = Ok (fst p)) kl ->
  comprehension (keyed f) (map snd kl) = Ok kl.
Proof.
  induction 1 as [|[k x] kl Hp _ IH]; [reflexivity|]. cbn [map comprehension].
  unfold keyed at 1. cbn [fst snd] in *. rewrite Hp, IH. reflexivity.
Qed.

Lemma list_sort_stable (k : key) (l r : list A) :
  list_sort f l = Ok r -> filter (has_key f k) r = filter (has_key f k) l.
Proof.
  unfold list_sort. fold (keyed f). intros H.
  apply bind_ok in H as (kl & Hkl & H).
  apply bind_ok in H as (sl & Hsl & H). injection H as <-.
  destruct (keyed_list f l kl Hkl) as [Hm Hf].
  assert (Hf' : Forall (fun p => f (snd p) = Ok (fst p)) sl)
    by (eapply Permutation_Forall; [apply sort_pairs_perm|]; eassumption).
  rewrite <- Hm, !filter_keyed by assumption.
  now rewrite (sort_pairs_stable k kl sl Hsl).
Qed.

Lemma list_sort_again (l r : list A) :
  (forall (a : A) (k : key), f a = Ok k -> alternating true k) ->
  list_sort f l = Ok r -> list_sort f r = Ok r.
Proof.
  intros Halt. unfold list_sort. fold (keyed f). intros H.
  apply bind_ok in H as (kl & Hkl & H).
  apply bind_ok in H as (sl & Hsl & H). injection H as <-.
  destruct (keyed_list f l kl Hkl) as [Hm Hf].
  assert (Hf' : Forall (fun p => f (snd p) = Ok (fst p)) sl)
    by (eapply Permutation_Forall; [apply sort_pairs_perm|]; eassumption).
  rewrite (keyed_again sl Hf'). cbn [bind].
  rewrite sort_pairs_of_sorted; [reflexivity| |].
  - now apply (keyed_typed f Halt).
  - apply (sort_pairs_sorted kl sl); [|exact Hsl].
    now apply (keyed_typed f Halt).
Qed.
End Stability.

(** X7. The sort is stable: the names that share a key (names that differ
    only in case or in leading zeros) come out in the order in which they
    were listed. *)
Theorem sort_keeps_order_of_ties (names sorted : list string) (k : key) :
  list_sort natural_sort_key names = Ok sorted ->
  filter (has_key natural_sort_key k) sorted
  = filter (has_key natural_sort_key k) names.
Proof. apply list_sort_stable. Qed.

Lemma sort_keeps_order_of_ties_witness :
  filter (has_key natural_sort_key [TStr "a"; TInt 1; TStr ".pdf"])
         ["A1.pdf"; "a01.PDF"; "a1.pdf"; "a2.pdf"]
  = filter (has_key natural_sort_key [TStr "a"; TInt 1; TStr ".pdf"])
           ["a2.pdf"; "A1.pdf"; "a01.PDF"; "a1.pdf"].
Proof.
  apply (sort_keeps_order_of_ties ["a2.pdf"; "A1.pdf"; "a01.PDF"; "a1.pdf"]).
  reflexivity.
Defined.

(** X8. Sorting is idempotent: sorting again the list that a sort returned
    returns it unchanged, for the folders and for the files of a folder
    alike. *)
Theorem sorting_twice_changes_nothing :
  (forall names sorted : list string,
      list_sort natural_sort_key names = Ok sorted ->
      list_sort natural_sort_key sorted = Ok sorted) /\
  (forall listing pdf_files : list entry,
      pdf_files_of listing = Ok pdf_files ->
      list_sort name_key pdf_files = Ok pdf_files).
Proof.
  split.
  - intros names sorted. apply list_sort_again, natural_sort_key_alternating.
  - intros listing pdf_files. unfold pdf_files_of.
    apply (list_sort_again name_key), name_key_alternating.
Qed.

Lemma sorting_twice_changes_nothing_witness :
  list_sort natural_sort_key ["a1.pdf"; "a2.pdf"; "a10.pdf"]
  = Ok ["a1.pdf"; "a2.pdf"; "a10.pdf"].
Proof.
  apply (proj1 sorting_twice_changes_nothing ["a10.pdf"; "a2.pdf"; "a1.pdf"]).
  reflexivity.
Defined.

(* ===================================================================== *)
(** ** Further properties of combine_pdfs and main *)
(* ===================================================================== *)

(** Every run, returning or not, has processed a plan; its state and its
    trace are those of the plan, and its ending tells how it ended. *)
Lemma run_summary (w : world) (src out : string) :
  exists (pl : plan) (ending : list event),
    trace (final (combine_pdfs w src out))
      = prepare_events w out ++ Walk src :: plan_events pl ++ ending /\
    merger (final (combine_pdfs w src out)) = plan_pages pl /\
    pdf_count (final (combine_pdfs w src out)) = plan_count pl /\
    ((raised (combine_pdfs w src out) = None /\
      ending = save_events out (plan_count pl) (plan_pages pl)) \/
     ((exists e, raised (combine_pdfs w src out) = Some e) /\
      (ending = [] \/ exists f, ending = [Listdir f]))).
Proof.
  destruct (raised (combine_pdfs w src out)) as [e|] eqn:R.
  - apply combine_pdfs_raises in R
      as [(_ & Hm & Hc & Ht)|(fs1 & f & fs2 & pl & _ & _ & _ & Hm & Hc & Ht)].
    + exists [], []. rewrite Ht, Hm, Hc. repeat split. right. eauto.
    + exists pl, [Listdir (fst f)]. rewrite Ht, Hm, Hc. repeat split.
      right. eauto.
  - apply combine_pdfs_returns in R as (fs & pl & _ & _ & Hm & Hc & Ht).
    exists pl, (save_events out (plan_count pl) (plan_pages pl)).
    rewrite Ht, Hm, Hc. repeat split. now left.
Qed.

Lemma plan_count_le_paths (pl : plan) :
  plan_count pl <= List.length (plan_paths pl).
Proof.
  unfold plan_count, plan_paths.
  induction pl as [|[folder files] pl IH]; [reflexivity|].
  cbn [flat_map fst snd]. rewrite filter_app, !length_app, length_map.
  apply Nat.add_le_mono; [apply filter_length_le|exact IH].
Qed.

(** X9. At the end of every run, returned or interrupted by an exception,
    [pdf_count] is the number of appends that succeeded, the accumulated
    document is made of their pages in the order of the appends, and no more
    files were appended than were handed to the merger. *)
Theorem run_accounting (w : world) (src out : string) :
  pdf_count (final (combine_pdfs w src out))
    = List.length (appended (trace (final (combine_pdfs w src out)))) /\
  merger (final (combine_pdfs w src out))
    = flat_map snd (appended (trace (final (combine_pdfs w src out)))) /\
  List.length (appended (trace (final (combine_pdfs w src out))))
    <= List.length (submitted (trace (final (combine_pdfs w src out)))).
Proof.
  destruct (run_summary w src out) as (pl & ending & Ht & Hm & Hc & He).
  assert (Ha : appended ending = []).
  { destruct He as [[_ ->]|[_ [->|(f & ->)]]]; auto using appended_save. }
  assert (Hs : submitted ending = []).
  { destruct He as [[_ ->]|[_ [->|(f & ->)]]]; auto using submitted_save. }
  rewrite Hm, Hc, Ht, (appended_outline w out src pl ending Ha),
    (submitted_outline w out src pl ending Hs).
  destruct (appended_plan pl) as [Hp Hl]. rewrite Hp, Hl.
  repeat split. apply plan_count_le_paths.
Qed.

Lemma walked_folder_planned (fs : list (string * list entry)) (pl : plan)
      (folder : string) (listing : list entry) :
  Forall2 plans_folder fs pl -> In (folder, listing) fs ->
  exists files, pdf_files_of listing = Ok files.
Proof.
  intros Hpl Hin. destruct (planned_for fs pl _ Hpl Hin) as (p & _ & _ & Hp).
  eauto.
Qed.

Lemma returning_run_sorted_all (w : world) (src out : string) :
  raised (combine_pdfs w src out) = None -> all_sortable (os_walk w src).
Proof.
  intros R folder listing Hin.
  destruct (combine_pdfs_returns w src out R)
    as (fs & pl & Hfs & Hpl & _ & _ & _).
  split.
  - destruct (list_sort_keys name_key _ _ Hfs (folder, listing) Hin)
      as (k & Hk).
    exists k. exact Hk.
  - intros name child Hc Hpdf.
    apply (list_sort_sorted name_key name_key_alternating) in Hfs as [P _].
    apply (Permutation_in _ P) in Hin.
    destruct (walked_folder_planned fs pl folder listing Hpl Hin)
      as (files & Hfiles).
    unfold pdf_files_of in Hfiles.
    destruct (list_sort_keys _ _ _ Hfiles (name, child)) as (k & Hk).
    + apply filter_In. auto.
    + exists k. exact Hk.
Qed.

Lemma sortable_names_return (w : world) (src out : string) :
  all_sortable (os_walk w src) -> raised (combine_pdfs w src out) = None.
Proof.
  intros H. destruct (raised (combine_pdfs w src out)) as [e|] eqn:R;
    [|reflexivity].
  apply combine_pdfs_exception in R
    as (s & Hs & [(listing & Hin)|(folder & listing & child & Hin & Hc & Hp)]).
  - destruct (H s listing Hin) as [(k & Hk) _]. congruence.
  - destruct (H folder listing Hin) as [_ Hnames].
    destruct (Hnames s child Hc Hp) as (k & Hk). congruence.
Qed.

(** X11. A name without a sort key stops the run: when the path of a
    walked folder, or the name of an entry with a PDF name in a walked
    folder, has no key, the run ends with an exception and writes no file.
    Conversely a run that returns has found a key for every folder path and
    every entry with a PDF name. *)
Theorem unsortable_name_stops_the_run (w : world) (src out : string) :
  (raised (combine_pdfs w src out) = None -> all_sortable (os_walk w src)) /\
  (forall folder listing,
      In (folder, listing) (os_walk w src) ->
      (~ sortable folder \/
       exists name child,
         In (name, child) listing /\ is_pdf_name name = true /\
         ~ sortable name) ->
      (exists e, raised (combine_pdfs w src out) = Some e) /\
      written (trace (final (combine_pdfs w src out))) = []).
Proof.
  split; [apply returning_run_sorted_all|].
  intros folder listing Hin Hbad.
  destruct (raised (combine_pdfs w src out)) as [e|] eqn:R.
  - split; [eauto|]. now apply (written_raises w src out e).
  - exfalso. apply returning_run_sorted_all in R.
    destruct (R folder listing Hin) as [Hf Hnames].
    destruct Hbad as [Hbad|(name & child & Hc & Hpdf & Hbad)].
    + now apply Hbad.
    + apply Hbad. now apply (Hnames name child).
Qed.

Lemma unsortable_name_stops_the_run_witness :
  (exists e, raised (combine_pdfs squared_file "." "../output") = Some e) /\
  written (trace (final (combine_pdfs squared_file "." "../output"))) = [].
Proof.
  apply (proj2 (unsortable_name_stops_the_run squared_file "." "../output")
               "./x" [(squared_pdf, File (Pdf [5]))]).
  - vm_compute. right. left. reflexivity.
  - right. exists squared_pdf, (File (Pdf [5])).
    split; [left; reflexivity|]. split; [reflexivity|].
    intros (k & Hk). vm_compute in Hk. discriminate.
Defined.

Lemma written_outline (w : world) (out src : string) (pl : plan)
      (ending : list event) :
  written (prepare_events w out ++ Walk src :: plan_events pl ++ ending)
  = written ending.
Proof.
  rewrite written_app, written_prepare. cbn [written app].
  rewrite written_app. now destruct (quiet_plan pl) as [-> _].
Qed.

(** What a run writes: the accumulated document when it returns with at
    least one successful append, and nothing otherwise. *)
Lemma written_by_run (w : world) (src out : string) :
  written (trace (final (combine_pdfs w src out)))
  = (if match raised (combine_pdfs w src out) with
         | None => (0 <? pdf_count (final (combine_pdfs w src out)))%nat
         | Some _ => false
         end
     then [(os_path_join out "combined_pdf.pdf",
            merger (final (combine_pdfs w src out)))]
     else []).
Proof.
  destruct (run_summary w src out) as (pl & ending & Ht & Hm & Hc & He).
  rewrite Ht, Hm, Hc, written_outline.
  destruct He as [[-> ->]|[(e & ->) He]].
  - unfold save_events. now destruct (0 <? plan_count pl)%nat.
  - now destruct He as [->|(f & ->)].
Qed.

(** X12. A run calls [merger.write] once or not at all.  Every call is
    made with the accumulated document, on
    [os.path.join(output_folder, 'combined_pdf.pdf')], after at least one
    append succeeded; a run that returns with [pdf_count] above zero has
    made the call, as the last calls of its trace, after every append; and
    with [pdf_count] at zero nothing is written. *)
Theorem one_file_written_or_none (w : world) (src out : string) :
  (forall p d,
      In (p, d) (written (trace (final (combine_pdfs w src out)))) ->
      p = os_path_join out "combined_pdf.pdf" /\
      d = merger (final (combine_pdfs w src out)) /\
      0 < pdf_count (final (combine_pdfs w src out)) /\
      written (trace (final (combine_pdfs w src out))) = [(p, d)]) /\
  (raised (combine_pdfs w src out) = None ->
   0 < pdf_count (final (combine_pdfs w src out)) ->
   exists t,
     trace (final (combine_pdfs w src out))
     = t ++ [Write (os_path_join out "combined_pdf.pdf")
                   (merger (final (combine_pdfs w src out)));
             Close;
             (Print (SuccessfullyCombined
                       (pdf_count (final (combine_pdfs w src out)))
                       (os_path_join out "combined_pdf.pdf")))] /\
     written t = [] /\
     appended t = appended (trace (final (combine_pdfs w src out)))) /\
  (pdf_count (final (combine_pdfs w src out)) = 0 ->
   written (trace (final (combine_pdfs w src out))) = []).
Proof.
  pose proof (written_by_run w src out) as Hw.
  split; [|split].
  - intros p d Hin. rewrite Hw in Hin |- *.
    destruct (raised (combine_pdfs w src out)); [destruct Hin|].
    destruct (0 <? pdf_count (final (combine_pdfs w src out)))%nat eqn:C;
      [|destruct Hin].
    destruct Hin as [Hin|[]]. injection Hin as <- <-.
    apply Nat.ltb_lt in C. auto.
  - intros R C.
    destruct (run_summary w src out) as (pl & ending & Ht & Hm & Hc & He).
    destruct He as [[_ ->]|[(e & He) _]]; [|congruence].
    rewrite Hc in C. apply Nat.ltb_lt in C.
    exists (prepare_events w out ++ Walk src :: plan_events pl).
    rewrite Ht, Hm, Hc. unfold save_events. rewrite C.
    split; [now rewrite <- app_assoc|]. split.
    + rewrite written_app, written_prepare. cbn [written app].
      apply quiet_plan.
    + rewrite (appended_outline w out src pl [Write _ _; Close; Print _]
                                eq_refl).
      rewrite appended_app, appended_prepare. reflexivity.
  - intros C. rewrite Hw, C.
    now destruct (raised (combine_pdfs w src out)).
Qed.

Lemma one_file_written_or_none_witness :
  exists t,
    trace (final (combine_pdfs library "." "../out"))
    = t ++ [Write (os_path_join "../out" "combined_pdf.pdf")
                  (merger (final (combine_pdfs library "." "../out")));
            Close;
            (Print (SuccessfullyCombined
                      (pdf_count (final (combine_pdfs library "." "../out")))
                      (os_path_join "../out" "combined_pdf.pdf")))] /\
    written t = [] /\
    appended t = appended (trace (final (combine_pdfs library "." "../out"))).
Proof.
  apply (proj1 (proj2 (one_file_written_or_none library "." "../out"))).
  - reflexivity.
  - vm_compute. lia.
Defined.

Lemma console_attempt (folder : string) (e : entry) :
  List.length (filter is_added (console (attempt_events folder e)))
    = (if succeeded e then 1 else 0) /\
  List.length (filter is_error (console (attempt_events folder e)))
    = (if succeeded e then 0 else 1).
Proof.
  unfold attempt_events, succeeded. now destruct (pdf_append (snd e)).
Qed.

Lemma console_attempts (folder : string) (files : list entry) :
  List.length (filter is_added
                 (console (flat_map (attempt_events folder) files)))
    = List.length (filter succeeded files) /\
  List.length (filter is_error
                 (console (flat_map (attempt_events folder) files)))
    + List.length (filter succeeded files)
    = List.length files.
Proof.
  induction files as [|e files [IH1 IH2]]; [auto|].
  cbn [flat_map filter]. rewrite console_app, !filter_app, !length_app.
  destruct (console_attempt folder e) as [-> ->]. rewrite IH1.
  destruct (succeeded e); cbn [List.length]; split; lia.
Qed.

Lemma plan_count_cons (folder : string) (files : list entry) (pl : plan) :
  plan_count ((folder, files) :: pl)
  = List.length (filter succeeded files) + plan_count pl.
Proof.
  unfold plan_count. cbn [flat_map snd].
  now rewrite filter_app, length_app.
Qed.

Lemma plan_paths_cons (folder : string) (files : list entry) (pl : plan) :
  List.length (plan_paths ((folder, files) :: pl))
  = List.length files + List.length (plan_paths pl).
Proof.
  unfold plan_paths. cbn [flat_map fst snd].
  now rewrite length_app, length_map.
Qed.

Lemma console_plan_cons (folder : string) (files : list entry) (pl : plan) :
  console (plan_events ((folder, files) :: pl))
  = console (flat_map (attempt_events folder) files)
    ++ console (plan_events pl).
Proof.
  unfold plan_events. cbn [flat_map]. rewrite console_app.
  reflexivity.
Qed.

Lemma console_plan_counts (pl : plan) :
  List.length (filter is_added (console (plan_events pl))) = plan_count pl /\
  List.length (filter is_error (console (plan_events pl))) + plan_count pl
    = List.length (plan_paths pl).
Proof.
  induction pl as [|[folder files] pl [IH1 IH2]]; [auto|].
  rewrite console_plan_cons, plan_count_cons, plan_paths_cons,
    !filter_app, !length_app.
  destruct (console_attempts folder files) as [H1 H2].
  split; lia.
Qed.

(** X13. The console tells what happened: in every run the number of
    [Added] lines is [pdf_count], the [Error adding] lines are one for each
    other file handed to the merger, and a run that returns ends its
    console with the summary that names [pdf_count] and the output path, or
    with the notice when [pdf_count] is zero. *)
Theorem console_accounts_for_every_append (w : world) (src out : string) :
  List.length (filter is_added
                 (console (trace (final (combine_pdfs w src out)))))
    = pdf_count (final (combine_pdfs w src out)) /\
  List.length (filter is_error
                 (console (trace (final (combine_pdfs w src out)))))
    + pdf_count (final (combine_pdfs w src out))
    = List.length (submitted (trace (final (combine_pdfs w src out)))) /\
  (raised (combine_pdfs w src out) = None ->
   exists lines,
     console (trace (final (combine_pdfs w src out)))
     = lines ++ [if (0 <? pdf_count (final (combine_pdfs w src out)))%nat
                 then SuccessfullyCombined
                        (pdf_count (final (combine_pdfs w src out)))
                        (os_path_join out "combined_pdf.pdf")
                 else NoPdfFilesFound]).
Proof.
  destruct (run_summary w src out) as (pl & ending & Ht & Hm & Hc & He).
  destruct (console_plan_counts pl) as [H1 H2].
  assert (Hs : submitted ending = []).
  { destruct He as [[_ ->]|[_ [->|(f & ->)]]]; auto using submitted_save. }
  assert (Hq : filter is_added (console ending) = [] /\
               filter is_error (console ending) = []).
  { destruct He as [[_ ->]|[_ [->|(f & ->)]]]; auto.
    unfold save_events. now destruct (0 <? plan_count pl)%nat. }
  destruct Hq as [Hq1 Hq2].
  assert (Hp : filter is_added (console (prepare_events w out)) = [] /\
               filter is_error (console (prepare_events w out)) = []).
  { unfold prepare_events. now destruct (output_exists w). }
  destruct Hp as [Hp1 Hp2].
  rewrite Hc, Ht, (submitted_outline w out src pl ending Hs).
  rewrite console_app. cbn [console]. rewrite console_app.
  rewrite !filter_app, Hp1, Hp2, Hq1, Hq2, !app_nil_r. cbn [app].
  split; [exact H1|]. split; [exact H2|].
  intros R. destruct He as [[_ ->]|[(e & He) _]]; [|congruence].
  unfold save_events.
  destruct (0 <? plan_count pl)%nat; cbn [console];
    eexists; rewrite app_assoc; reflexivity.
Qed.

Lemma console_accounts_for_every_append_witness :
  exists lines,
    console (trace (final (combine_pdfs library "." "out")))
    = lines ++ [if (0 <? pdf_count (final (combine_pdfs library "." "out")))%nat
                then SuccessfullyCombined
                       (pdf_count (final (combine_pdfs library "." "out")))
                       (os_path_join "out" "combined_pdf.pdf")
                else NoPdfFilesFound].
Proof.
  apply (proj2 (proj2 (console_accounts_for_every_append library "." "out"))).
  reflexivity.
Defined.

(** X14. In a run that returns, the paths handed to the merger are the
    paths of the entries with a PDF name of the whole tree, each once for
    each time it is listed: every such entry of every directory below the
    source folder, at any depth, is submitted, and nothing else is. *)
Theorem returning_run_submits_every_candidate (w : world) (src out : string)
        (tree : node) :
  source w = Some tree ->
  raised (combine_pdfs w src out) = None ->
  Permutation (submitted (trace (final (combine_pdfs w src out))))
              (candidate_paths (walk src tree)) /\
  (forall folder name child,
      in_tree src tree folder (name, child) -> is_pdf_name name = true ->
      In (os_path_join folder name)
         (submitted (trace (final (combine_pdfs w src out))))) /\
  (forall p, In p (submitted (trace (final (combine_pdfs w src out)))) ->
             exists folder name child,
               in_tree src tree folder (name, child) /\
               is_pdf_name name = true /\ p = os_path_join folder name).
Proof.
  intros Hsrc R. pose proof (submitted_all_candidates w src out R) as P.
  unfold os_walk in P. rewrite Hsrc in P.
  split; [exact P|]. split.
  - intros folder name child Hin Hpdf.
    apply (Permutation_in _ (Permutation_sym P)).
    apply walk_in_tree in Hin as (listing & Hl & He).
    unfold candidate_paths. apply in_flat_map.
    exists (folder, listing). split; [exact Hl|]. cbn [fst snd].
    apply in_map_iff. exists (name, child). split; [reflexivity|].
    apply filter_In. auto.
  - intros p Hp. apply (Permutation_in _ P) in Hp.
    unfold candidate_paths in Hp.
    apply in_flat_map in Hp as ([folder listing] & Hl & Hp).
    cbn [fst snd] in Hp. apply in_map_iff in Hp as ([name child] & <- & He).
    apply filter_In in He as [He Hpdf].
    exists folder, name, child. repeat split; auto.
    apply walk_in_tree. eauto.
Qed.

Lemma returning_run_submits_every_candidate_witness :
  In (os_path_join "./sub" "b.pdf")
     (submitted (trace (final (combine_pdfs library "." "out")))).
Proof.
  refine (proj1 (proj2 (returning_run_submits_every_candidate
                          library "." "out" _ eq_refl eq_refl))
                "./sub" "b.pdf" (File (Pdf [7])) _ eq_refl).
  eapply in_below with (name := "sub"); [right; right; left; reflexivity|].
  apply in_here. right. right. left. reflexivity.
Defined.

(** X15. [main] without arguments reads the current directory and writes
    to [output/combined_pdf.pdf]: its first line names the source folder
    ['.'] and every file it writes is at that path.  A run that ends with
    status 0 has found a sort key for every folder path and every PDF name
    of the tree; when one of them has no key the process ends with
    status 1. *)
Theorem main_with_defaults (w : world) :
  (exists rest, fst (main w None None) = Print (Starting ".") :: rest) /\
  (forall p d, In (Write p d) (fst (main w None None)) ->
               p = "output/combined_pdf.pdf") /\
  (snd (main w None None) = 0 -> all_sortable (os_walk w ".")) /\
  (~ all_sortable (os_walk w ".") -> snd (main w None None) = 1).
Proof.
  unfold main, default_source_folder, default_output_folder. cbn [fst snd].
  split; [eauto|]. split.
  - intros p d [H|H]; [discriminate|].
    assert (Hin : In (p, d)
                     (written (trace (final (combine_pdfs w "." "output"))))).
    { induction (trace (final (combine_pdfs w "." "output"))) as [|ev t IH];
        [destruct H|].
      destruct H as [->|H]; [now left|].
      destruct ev; simpl; auto. }
    rewrite (written_by_run w "." "output") in Hin.
    destruct (match raised (combine_pdfs w "." "output") with
              | Some _ => false
              | None => (0 <? pdf_count (final (combine_pdfs w "." "output")))%nat
              end); [|destruct Hin].
    destruct Hin as [Hin|[]]. now injection Hin as <- _.
  - pose proof (returning_run_sorted_all w "." "output") as H1.
    destruct (raised (combine_pdfs w "." "output")) as [e|]; split;
      intros H; try discriminate; auto.
    exfalso. apply H, H1. reflexivity.
Qed.

Lemma main_with_defaults_witness :
  snd (main working_directory None None) = 1.
Proof.
  apply (proj2 (proj2 (proj2 (main_with_defaults working_directory)))).
  intros H.
  destruct (H (os_path_join "." two_squared) [])
    as [(k & Hk) _].
  - vm_compute. right. right. left. reflexivity.
  - vm_compute in Hk. discriminate.
Defined.

Lemma in_tree_below (top : string) (n : node) (folder name : string)
      (child : node) :
  in_tree top n folder (name, child) ->
  forall folder' e, in_tree (os_path_join folder name) child folder' e ->
                    in_tree top n folder' e.
Proof.
  intros H. remember (name, child) as x eqn:Hx. revert name child Hx.
  induction H as [top entries e Hin|top entries name0 child0 folder e Hin _ IH];
    intros name child -> folder' e' Hsub.
  - eapply in_below; eassumption.
  - eapply in_below; [exact Hin|]. eapply IH; [reflexivity|exact Hsub].
Qed.

(** X16. A directory whose name ends in [.pdf] is taken for a candidate:
    in a run that returns it is handed to the merger, the append fails and
    an [Error adding] line is printed for its path, and nothing of it is
    merged; the PDF files it holds are submitted all the same, under its
    path. *)
Theorem directory_with_pdf_name (w : world) (src out : string) (tree : node)
        (folder name : string) (entries : list entry) :
  source w = Some tree ->
  raised (combine_pdfs w src out) = None ->
  in_tree src tree folder (name, Dir entries) ->
  is_pdf_name name = true ->
  (exists reason,
      In (Append (os_path_join folder name) (inl reason))
         (trace (final (combine_pdfs w src out))) /\
      In (ErrorAdding (os_path_join folder name) reason)
         (console (trace (final (combine_pdfs w src out))))) /\
  (forall name' child',
      In (name', child') entries -> is_pdf_name name' = true ->
      In (os_path_join (os_path_join folder name) name')
         (submitted (trace (final (combine_pdfs w src out))))).
Proof.
  intros Hsrc R Hin Hpdf. split.
  - exists "Is a directory".
    apply walk_in_tree in Hin as (listing & Hl & He).
    apply (failure_reported w src out folder "Is a directory" listing
                            (name, Dir entries)); auto.
    unfold os_walk. now rewrite Hsrc.
  - intros name' child' He Hpdf'.
    pose proof (submitted_all_candidates w src out R) as P.
    apply (Permutation_in _ (Permutation_sym P)).
    assert (Hsub : in_tree src tree (os_path_join folder name) (name', child')).
    { eapply in_tree_below; [exact Hin|]. now constructor. }
    apply walk_in_tree in Hsub as (listing & Hl & He').
    unfold candidate_paths. apply in_flat_map.
    exists (os_path_join folder name, listing). split.
    + unfold os_walk. now rewrite Hsrc.
    + cbn [fst snd]. apply in_map_iff. exists (name', child').
      split; [reflexivity|]. apply filter_In. auto.
Qed.

Lemma directory_with_pdf_name_witness :
  (exists reason,
      In (Append (os_path_join "." "scans.pdf") (inl reason))
         (trace (final (combine_pdfs folder_named_pdf "." "out"))) /\
      In (ErrorAdding (os_path_join "." "scans.pdf") reason)
         (console (trace (final (combine_pdfs folder_named_pdf "." "out"))))) /\
  (forall name' child',
      In (name', child') [("p1.pdf", File (Pdf [4]))] ->
      is_pdf_name name' = true ->
      In (os_path_join (os_path_join "." "scans.pdf") name')
         (submitted (trace (final (combine_pdfs folder_named_pdf "." "out"))))).
Proof.
  apply (directory_with_pdf_name folder_named_pdf "." "out"
           (Dir [("scans.pdf", Dir [("p1.pdf", File (Pdf [4]))])])).
  - reflexivity.
  - reflexivity.
  - constructor. left. reflexivity.
  - reflexivity.
Defined.

(** *** Entries without a PDF name *)

Lemma state_eq (a b : state) :
  merger a = merger b -> pdf_count a = pdf_count b -> trace a = trace b ->
  a = b.
Proof. destruct a, b. simpl. now intros -> -> ->. Qed.

Lemma add_pdfs_same_files (folder : string) (l l' : list entry) (st : state) :
  Forall2 same_file l l' -> add_pdfs folder l st = add_pdfs folder l' st.
Proof.
  intros H. destruct (same_file_events folder l l' H) as (E1 & E2 & E3).
  destruct (add_pdfs_spec folder l st) as (M & C & T).
  destruct (add_pdfs_spec folder l' st) as (M' & C' & T').
  apply state_eq; congruence.
Qed.

Lemma same_candidates_key (f f' : string * list entry) :
  same_candidates f f' -> name_key f = name_key f'.
Proof. intros [H _]. unfold name_key. now rewrite H. Qed.

Lemma process_folders_same_candidates (fs fs' : list (string * list entry)) :
  Forall2 same_candidates fs fs' ->
  forall st, process_folders fs st = process_folders fs' st.
Proof.
  induction 1 as [|[folder listing] [folder' listing'] fs fs' [Hf Hl] _ IH];
    intros st; [reflexivity|].
  cbn [fst snd] in *. subst folder'. cbn [process_folders].
  assert (Hs : match pdf_files_of listing with
               | Ok r => exists r', pdf_files_of listing' = Ok r' /\
                                    Forall2 same_file r r'
               | Raise e => pdf_files_of listing' = Raise e
               end)
    by exact (list_sort_related name_key name_key_alternating same_file
                                same_file_key _ _ Hl).
  destruct (pdf_files_of listing) as [files|e].
  - destruct Hs as (files' & -> & Hfiles).
    rewrite (add_pdfs_same_files folder files files' _ Hfiles). apply IH.
  - now rewrite Hs.
Qed.

(** X17. The run depends on the tree only through the paths of its folders
    and their entries with a PDF name: two trees whose walks give the same
    folder paths with the same candidates make the same calls and end in the
    same state, whatever else the folders hold. *)
Theorem other_entries_change_nothing (w w' : world) (src out : string) :
  output_exists w' = output_exists w ->
  Forall2 same_candidates (os_walk w src) (os_walk w' src) ->
  combine_pdfs w src out = combine_pdfs w' src out.
Proof.
  intros Hout Hsim. unfold combine_pdfs. rewrite Hout.
  fold (@name_key (list entry)).
  pose proof (list_sort_related name_key name_key_alternating same_candidates
                                same_candidates_key _ _ Hsim) as Hs.
  destruct (list_sort name_key (os_walk w src)) as [fs|e].
  - destruct Hs as (fs' & -> & Hfs).
    now rewrite (process_folders_same_candidates fs fs' Hfs).
  - now rewrite Hs.
Qed.

Lemma other_entries_change_nothing_witness :
  combine_pdfs library "." "out" = combine_pdfs library_without_text "." "out".
Proof.
  apply (other_entries_change_nothing library library_without_text "." "out").
  - reflexivity.
  - cbv [os_walk source library library_without_text walk].
    constructor; [|constructor; [|constructor]];
      (split; [reflexivity|]); vm_compute;
      repeat (constructor; [cbv beta; split; reflexivity|]); constructor.
Defined.

